(** * A shallow embedding of the grpc-go HTTP/2 transport core.

    [ContextErr] is translated from [transport/go16.go], the server
    handlers [handleStreamMisbehave] and [handleStreamPingPong] from
    [transport/transport_test.go], and the v1 balancer wrapper of package
    [grpc] (its [Build], [lbWatcher], [HandleSubConnStateChange], [Pick]
    and connectivity state evaluator) from its source.  The rest of the
    transport (stream object, receive buffer, inbound flow control, quota
    pools, client and server transports, status tables) is not part of the
    sources at hand; those definitions follow the specification of the
    transport and say so in their doc comments. *)

From Stdlib Require Import String Ascii.
From stdpp Require Import base gmap list strings.

Local Open Scope N_scope.

(* ------------------------------------------------------------------ *)
(** ** Status codes ([codes] package) *)

Inductive code :=
  | OK | Canceled | Unknown | InvalidArgument | DeadlineExceeded | NotFound
  | AlreadyExists | PermissionDenied | ResourceExhausted | FailedPrecondition
  | Aborted | OutOfRange | Unimplemented | Internal | Unavailable | DataLoss
  | Unauthenticated.

Global Instance code_eq_dec : EqDecision code.
Proof. solve_decision. Defined.

(** [StreamError] of the transport package: a code and a description. *)
Record StreamError := mkStreamError { Code : code; Desc : string }.

(** [streamErrorf(c, format, a...)]: the description is the formatted text;
    callers below pass it already formatted. *)
Definition streamErrorf (c : code) (desc : string) : StreamError :=
  mkStreamError c desc.

(* ------------------------------------------------------------------ *)
(** ** [ContextErr] (transport/go16.go) *)

(** Go [error] values reaching [ContextErr]: the two sentinels of the
    context package, and any other error, known by its message.  Go's
    [switch err] compares interface values, so an error that merely has the
    same text as a sentinel is a different value: it is an [OtherErr]. *)
Inductive goError :=
  | CtxDeadlineExceeded
  | CtxCanceled
  | OtherErr (msg : string).

(** [err.Error()], i.e. what [%v] prints. *)
Definition Error (e : goError) : string :=
  match e with
  | CtxDeadlineExceeded => "context deadline exceeded"
  | CtxCanceled => "context canceled"
  | OtherErr m => m
  end.

(** [func ContextErr(err error) StreamError] *)
Definition ContextErr (err : goError) : StreamError :=
  match err with
  | CtxDeadlineExceeded => streamErrorf DeadlineExceeded (Error err)
  | CtxCanceled => streamErrorf Canceled (Error err)
  | _ => streamErrorf Internal
           (String.append "Unexpected error from context packet: " (Error err))
  end.

(* ------------------------------------------------------------------ *)
(** ** HTTP/2 error codes and the status tables *)

(** HTTP/2 error codes (RFC 7540, section 7). *)
Inductive http2ErrCode :=
  | ErrCodeNo | ErrCodeProtocol | ErrCodeInternal | ErrCodeFlowControl
  | ErrCodeSettingsTimeout | ErrCodeStreamClosed | ErrCodeFrameSize
  | ErrCodeRefusedStream | ErrCodeCancel | ErrCodeCompression | ErrCodeConnect
  | ErrCodeEnhanceYourCalm | ErrCodeInadequateSecurity | ErrCodeHTTP11Required.

Global Instance http2ErrCode_eq_dec : EqDecision http2ErrCode.
Proof. solve_decision. Defined.

(** Modelled from the spec: [http2ErrConvTab], the HTTP/2 error code to RPC
    code table of section 4.8 ("HTTP/2 error code -> RPC code").  The table
    has no entry for STREAM_CLOSED. *)
Definition http2ErrConvTab (c : http2ErrCode) : option code :=
  match c with
  | ErrCodeNo => Some OK
  | ErrCodeProtocol | ErrCodeInternal => Some Internal
  | ErrCodeFlowControl | ErrCodeSettingsTimeout | ErrCodeFrameSize
  | ErrCodeCompression | ErrCodeConnect => Some Internal
  | ErrCodeRefusedStream => Some Unavailable
  | ErrCodeCancel => Some Canceled
  | ErrCodeEnhanceYourCalm => Some ResourceExhausted
  | ErrCodeInadequateSecurity => Some PermissionDenied
  | ErrCodeHTTP11Required => Some Internal
  | ErrCodeStreamClosed => None
  end.

(** Modelled from the spec: [httpStatusConvTab], the HTTP status to RPC code
    table of section 4.8, "used when a proxy returns non-200 before
    grpc-status". *)
Definition httpStatusConvTab (s : N) : option code :=
  match s with
  | 400 => Some Internal
  | 401 => Some Unauthenticated
  | 403 => Some PermissionDenied
  | 404 => Some Unimplemented
  | 429 | 502 | 503 | 504 => Some Unavailable
  | _ => None
  end.

(** "other non-200 -> Unknown". *)
Definition httpStatusToCode (s : N) : code :=
  match httpStatusConvTab s with Some c => c | None => Unknown end.

(* ------------------------------------------------------------------ *)
(** ** Receive buffer and its reader *)

(** Terminal conditions a read can report. *)
Inductive recvErr :=
  | EOF                            (** remote end-stream, buffer drained *)
  | StreamErr (se : StreamError)   (** stream reset or local status *)
  | ErrStreamDrain                 (** refused because of drain / GOAWAY *)
  | ErrConnClosing.                (** the connection is going away *)

(** A receive-buffer chunk: "(bytes|error)". *)
Inductive chunk :=
  | CData (d : list Byte.byte)
  | CErr (e : recvErr).

(** Modelled from the spec: the receive buffer (section 3, "a FIFO of
    chunks") with its reader (section 4.5, [read(buf) -> (n, err)]): the
    undelivered chunks, the rest of the data chunk being read, and the
    error already reported, which every later read repeats. *)
Record recvBuffer := mkRecvBuffer {
  rbChunks : list chunk;
  rbLast : list Byte.byte;
  rbErr : option recvErr
}.

Definition emptyRecvBuffer : recvBuffer := mkRecvBuffer [] [] None.

(** The reader thread delivers a chunk at the end of the FIFO. *)
Definition rbPut (b : recvBuffer) (c : chunk) : recvBuffer :=
  mkRecvBuffer (rbChunks b ++ [c]) (rbLast b) (rbErr b).

(** [read] into a buffer of [n] bytes.  [None] means the read blocks (no
    byte and no terminal condition is available); otherwise the bytes read
    (their count is the [n] of [(n, err)]) and the error, if any. *)
Definition rbRead (b : recvBuffer) (n : nat)
  : option (list Byte.byte * option recvErr) * recvBuffer :=
  match rbErr b with
  | Some e => (Some ([], Some e), b)
  | None =>
      match rbLast b with
      | _ :: _ =>
          (Some (take n (rbLast b), None),
           mkRecvBuffer (rbChunks b) (drop n (rbLast b)) None)
      | [] =>
          match rbChunks b with
          | [] => (None, b)
          | CData d :: rest =>
              (Some (take n d, None), mkRecvBuffer rest (drop n d) None)
          | CErr e :: rest =>
              (Some ([], Some e), mkRecvBuffer rest [] (Some e))
          end
      end
  end.

(* ------------------------------------------------------------------ *)
(** ** Inbound flow control *)

(** Modelled from the spec: the inbound flow-control window of section 3,
    kept per connection and per stream. *)
Record inFlow := mkInFlow {
  limit : N;
  pendingData : N;
  pendingUpdate : N;
  delta : N
}.

(** [onData(n)]: the peer sent [n] bytes.  Receiving them must keep
    [pendingData + pendingUpdate <= limit + delta]; otherwise the peer
    violated the window ([None]). *)
Definition onData (f : inFlow) (n : N) : option inFlow :=
  if limit f + delta f <? pendingData f + pendingUpdate f + n then None
  else Some (mkInFlow (limit f) (pendingData f + n) (pendingUpdate f) (delta f)).

(** [onRead(n)]: the application consumed [n] bytes; they move from
    [pendingData] to [pendingUpdate], and once [pendingUpdate >= limit/4] a
    WINDOW_UPDATE of that amount is due and [pendingUpdate] is reset. *)
Definition onRead (f : inFlow) (n : N) : inFlow * option N :=
  let pu := pendingUpdate f + n in
  let pd := pendingData f - n in
  if limit f / 4 <=? pu then (mkInFlow (limit f) pd 0 (delta f), Some pu)
  else (mkInFlow (limit f) pd pu (delta f), None).

(* ------------------------------------------------------------------ *)
(** ** Header fields *)

Definition headerField : Type := (string * string)%type.

(** The value of the first field called [name]. *)
Fixpoint hfLookup (name : string) (hf : list headerField) : option string :=
  match hf with
  | [] => None
  | (k, v) :: rest => if String.eqb k name then Some v else hfLookup name rest
  end.

Definition digitVal (c : ascii) : option N :=
  let n := N.of_nat (nat_of_ascii c) in
  if (48 <=? n) && (n <=? 57) then Some (n - 48) else None.

(** Decimal value of a non-empty string of digits. *)
Fixpoint parseDecAcc (acc : N) (s : string) : option N :=
  match s with
  | EmptyString => Some acc
  | String c rest =>
      match digitVal c with
      | Some d => parseDecAcc (acc * 10 + d) rest
      | None => None
      end
  end.

Definition parseDec (s : string) : option N :=
  match s with EmptyString => None | _ => parseDecAcc 0 s end.

(** The RPC code carried by a [grpc-status] value. *)
Definition codeOfN (n : N) : code :=
  match n with
  | 0 => OK | 1 => Canceled | 2 => Unknown | 3 => InvalidArgument
  | 4 => DeadlineExceeded | 5 => NotFound | 6 => AlreadyExists
  | 7 => PermissionDenied | 8 => ResourceExhausted | 9 => FailedPrecondition
  | 10 => Aborted | 11 => OutOfRange | 12 => Unimplemented | 13 => Internal
  | 14 => Unavailable | 15 => DataLoss | 16 => Unauthenticated
  | _ => Unknown
  end.

(** Modelled from the spec: [isReservedHeader], the reserved header names of
    section 6, "always rejected as application metadata". *)
Definition reservedHeaders : list string :=
  ["content-type"; "grpc-message-type"; "grpc-encoding";
   "grpc-accept-encoding"; "grpc-message"; "grpc-status"; "grpc-timeout";
   "te"]%string.

Definition isReservedHeader (hdr : string) : bool :=
  existsb (String.eqb hdr) reservedHeaders.

(* ------------------------------------------------------------------ *)
(** ** Control buffer items *)

(** Modelled from the spec: the outbound intents of the control buffer
    (section 3). *)
Inductive item :=
  | IHeaders (sid : N) (hf : list headerField) (endStream : bool)
  | IData (sid : N) (d : list Byte.byte) (endStream : bool)
  | IWindowUpdate (sid : N) (increment : N)
  | IPing (ack : bool)
  | IGoAway (lastStreamID : N) (c : http2ErrCode)
  | IRstStream (sid : N) (c : http2ErrCode).

(* ------------------------------------------------------------------ *)
(** ** Streams and transports *)

Inductive streamState := Active | HalfClosedLocal | HalfClosedRemote | StreamClosed.

Global Instance streamState_eq_dec : EqDecision streamState.
Proof. solve_decision. Defined.

(** Modelled from the spec: the stream object of sections 3 and 4.5. *)
Record Stream := mkStream {
  sid : N;
  smethod : string;
  sstate : streamState;
  sbuf : recvBuffer;
  sfc : inFlow;
  sheaderDone : bool;
  sstatus : option code
}.

Inductive endpoint := ClientSide | ServerSide.

Inductive transportState := Reachable | Draining | Closing | Closed.

Global Instance transportState_eq_dec : EqDecision transportState.
Proof. solve_decision. Defined.

(** Modelled from the spec: the connection of section 3 (the part the
    reader, the application and the shutdown paths share).  [streams] keeps
    every stream object the application holds, [active] the ids of the
    streams that are not closed yet. *)
Record transport := mkTransport {
  side : endpoint;
  tstate : transportState;
  nextID : N;
  streams : gmap N Stream;
  active : gset N;
  connFc : inFlow;
  controlBuf : list item;
  initialWindowSize : N
}.

Definition setStreams (t : transport) (m : gmap N Stream) (a : gset N) : transport :=
  mkTransport (side t) (tstate t) (nextID t) m a (connFc t) (controlBuf t)
    (initialWindowSize t).

Definition setState (t : transport) (st : transportState) : transport :=
  mkTransport (side t) st (nextID t) (streams t) (active t) (connFc t)
    (controlBuf t) (initialWindowSize t).

Definition setConnFc (t : transport) (f : inFlow) : transport :=
  mkTransport (side t) (tstate t) (nextID t) (streams t) (active t) f
    (controlBuf t) (initialWindowSize t).

(** [controlBuf.put(it)]. *)
Definition put (t : transport) (it : item) : transport :=
  mkTransport (side t) (tstate t) (nextID t) (streams t) (active t) (connFc t)
    (controlBuf t ++ [it]) (initialWindowSize t).

Definition putAll (t : transport) (its : list item) : transport :=
  mkTransport (side t) (tstate t) (nextID t) (streams t) (active t) (connFc t)
    (controlBuf t ++ its) (initialWindowSize t).

(** A fresh inbound window of [w] bytes. *)
Definition newInFlow (w : N) : inFlow := mkInFlow w 0 0 0.

(** The error a connection-level close delivers to every open stream
    ("unblocks all streams with an Unavailable ... error"). *)
Definition errConnClosing : recvErr :=
  StreamErr (mkStreamError Unavailable "transport is closing").

Definition setBuf (s : Stream) (b : recvBuffer) : Stream :=
  mkStream (sid s) (smethod s) (sstate s) b (sfc s) (sheaderDone s) (sstatus s).

(** Terminate a stream: the error is delivered after the buffered data and
    the final status is recorded. *)
Definition closeStreamWith (s : Stream) (e : recvErr) (c : option code) : Stream :=
  mkStream (sid s) (smethod s) StreamClosed (rbPut (sbuf s) (CErr e)) (sfc s)
    (sheaderDone s) c.

(** Connection close: every stream still open gets [errConnClosing]. *)
Definition closeTransport (t : transport) : transport :=
  let m := map_imap (fun k s => Some (if decide (k ∈ active t)
                                     then closeStreamWith s errConnClosing (Some Unavailable)
                                     else s)) (streams t) in
  setState (setStreams t m ∅) Closed.

(** A stream reached its terminal state: it leaves the active set, and a
    draining transport closes once the last active stream is gone. *)
Definition finishStream (t : transport) (i : N) : transport :=
  let t1 := setStreams t (streams t) (active t ∖ {[i]}) in
  if decide (tstate t1 = Draining /\ active t1 = ∅) then closeTransport t1 else t1.

(* ------------------------------------------------------------------ *)
(** ** Client transport: stream creation, writes, graceful close *)

Record CallHdr := mkCallHdr { Host : string; Method : string }.

(** Modelled from the spec: the HEADERS of a new stream (section 4.6):
    pseudo-headers, RPC metadata, then the application metadata, of which
    the reserved names are rejected. *)
Definition createHeaderFields (ch : CallHdr) (md : list headerField)
  : list headerField :=
  [(":method", "POST"); (":scheme", "http"); (":path", Method ch);
   (":authority", Host ch); ("content-type", "application/grpc");
   ("te", "trailers")]%string
  ++ filter (fun f => isReservedHeader f.1 = false) md.

Definition newStreamObj (i : N) (ch : CallHdr) (w : N) : Stream :=
  mkStream i (Method ch) Active emptyRecvBuffer (newInFlow w) false None.

(** Modelled from the spec: [newStream(ctx, callHdr)] of section 4.6.  A
    draining transport rejects it with StreamDrain, a closing or closed one
    with the connection error; otherwise the next stream id is allocated,
    the stream registered and its HEADERS queued. *)
Definition NewStream (t : transport) (ch : CallHdr) (md : list headerField)
  : (N + recvErr) * transport :=
  match tstate t with
  | Draining => (inr ErrStreamDrain, t)
  | Closing | Closed => (inr errConnClosing, t)
  | Reachable =>
      let i := nextID t in
      let s := newStreamObj i ch (initialWindowSize t) in
      (inl i,
       mkTransport (side t) (tstate t) (i + 2) (<[i := s]> (streams t))
         ({[i]} ∪ active t) (connFc t)
         (controlBuf t ++ [IHeaders i (createHeaderFields ch md) false])
         (initialWindowSize t))
  end.

Definition setSState (s : Stream) (st : streamState) : Stream :=
  mkStream (sid s) (smethod s) st (sbuf s) (sfc s) (sheaderDone s) (sstatus s).

(** Modelled from the spec: [write(bytes, opts{last})] of section 4.5.  No
    DATA is queued for a stream in HalfClosedLocal or later (the write
    reports EOF, the spec naming no error for it); a last write half-closes
    the stream locally. *)
Definition Write (t : transport) (i : N) (d : list Byte.byte) (last : bool)
  : option recvErr * transport :=
  match tstate t with
  | Closing | Closed => (Some errConnClosing, t)
  | _ =>
      match streams t !! i with
      | None => (Some errConnClosing, t)
      | Some s =>
          match sstate s with
          | Active =>
              let t1 := put t (IData i d last) in
              if last
              then (None, setStreams t1 (<[i := setSState s HalfClosedLocal]> (streams t1))
                            (active t1))
              else (None, t1)
          | HalfClosedRemote =>
              let t1 := put t (IData i d last) in
              if last
              then (None, finishStream
                            (setStreams t1 (<[i := setSState s StreamClosed]> (streams t1))
                               (active t1)) i)
              else (None, t1)
          | HalfClosedLocal | StreamClosed => (Some EOF, t)
          end
      end
  end.

(** Modelled from the spec: [GracefulClose] of section 4.6.  The transport
    drains, queues GOAWAY(lastProcessedStreamId, NO_ERROR) (a client has
    processed no peer-initiated stream: 0), and closes at once when no
    stream is active. *)
Definition GracefulClose (t : transport) : transport :=
  match tstate t with
  | Reachable =>
      let t1 := put (setState t Draining) (IGoAway 0 ErrCodeNo) in
      if decide (active t1 = ∅) then closeTransport t1 else t1
  | _ => t
  end.

(* ------------------------------------------------------------------ *)
(** ** The reader: inbound frames (shared by client and server) *)

(** A stream can still receive frames from the peer. *)
Definition recvOpen (t : transport) (i : N) : option Stream :=
  match streams t !! i with
  | Some s =>
      if decide (i ∈ active t) then
        match sstate s with
        | Active | HalfClosedLocal => Some s
        | _ => None
        end
      else None
  | None => None
  end.

(** The peer ended its side of stream [i] (whose updated object is [s]):
    Active becomes HalfClosedRemote, HalfClosedLocal becomes closed. *)
Definition endRemote (t : transport) (i : N) (s : Stream) : transport :=
  match sstate s with
  | HalfClosedLocal =>
      finishStream (setStreams t (<[i := setSState s StreamClosed]> (streams t))
                      (active t)) i
  | _ => setStreams t (<[i := setSState s HalfClosedRemote]> (streams t)) (active t)
  end.

(** The stream-level part of a DATA frame: window accounting, then the data
    (and EOF on END_STREAM) into the receive buffer. *)
Definition handleStreamData (t : transport) (i : N) (d : list Byte.byte)
    (endStream : bool) : transport :=
  match recvOpen t i with
  | None => t
  | Some s =>
      match onData (sfc s) (N.of_nat (length d)) with
      | None =>
          (* the peer violated the stream window *)
          let c := match http2ErrConvTab ErrCodeFlowControl with
                   | Some c => c | None => Unknown end in
          let e := StreamErr (mkStreamError c "flow control error") in
          let t1 := put t (IRstStream i ErrCodeFlowControl) in
          finishStream (setStreams t1 (<[i := closeStreamWith s e (Some c)]> (streams t1))
                          (active t1)) i
      | Some f =>
          let b := rbPut (sbuf s) (CData d) in
          let s1 := mkStream (sid s) (smethod s) (sstate s) b f (sheaderDone s) (sstatus s) in
          if endStream then endRemote t i (setBuf s1 (rbPut b (CErr EOF)))
          else setStreams t (<[i := s1]> (streams t)) (active t)
      end
  end.

(** Modelled from the spec: DATA handling of the reader (sections 4.2, 4.6,
    7).  The connection window is charged first; a peer that oversends it
    commits a connection-fatal flow-control violation.  The connection
    window is not tied to the application's reads: its bytes count as
    consumed at once, which may queue a connection WINDOW_UPDATE. *)
Definition handleData (t : transport) (i : N) (d : list Byte.byte)
    (endStream : bool) : transport :=
  let n := N.of_nat (length d) in
  match onData (connFc t) n with
  | None => closeTransport (put t (IGoAway 0 ErrCodeFlowControl))
  | Some cf =>
      let '(cf', upd) := onRead cf n in
      let t1 := setConnFc t cf' in
      let t2 := match upd with Some w => put t1 (IWindowUpdate 0 w) | None => t1 end in
      handleStreamData t2 i d endStream
  end.

Definition setHeaderDone (s : Stream) : Stream :=
  mkStream (sid s) (smethod s) (sstate s) (sbuf s) (sfc s) true (sstatus s).

Definition setStatus (s : Stream) (c : option code) : Stream :=
  mkStream (sid s) (smethod s) (sstate s) (sbuf s) (sfc s) (sheaderDone s) c.

(** Modelled from the spec: HEADERS handling of the client reader (sections
    4.5, 4.6, 4.8 and open question (c)).  A frame with [grpc-status] and
    END_STREAM is the trailers: EOF after the buffered data, and the final
    status.  A frame without [grpc-status] whose [:status] is not 200 ends
    the stream with a StreamError whose code is given by the HTTP status
    table ("other non-200 -> Unknown"; an unparsable [:status] is non-200).
    Any other frame records the headers, and ends the remote side on
    END_STREAM; the spec gives no final status in that case, none is
    recorded. *)
Definition handleHeaders (t : transport) (i : N) (hf : list headerField)
    (endStream : bool) : transport :=
  match recvOpen t i with
  | None => t
  | Some s =>
      let normal :=
        if endStream then endRemote t i (setHeaderDone (setBuf s (rbPut (sbuf s) (CErr EOF))))
        else setStreams t (<[i := setHeaderDone s]> (streams t)) (active t) in
      match hfLookup "grpc-status" hf with
      | Some v =>
          let c := match parseDec v with Some n => codeOfN n | None => Unknown end in
          if endStream
          then endRemote t i (setStatus (setHeaderDone (setBuf s (rbPut (sbuf s) (CErr EOF)))) (Some c))
          else setStreams t (<[i := setHeaderDone s]> (streams t)) (active t)
      | None =>
          match hfLookup ":status" hf with
          | None => normal
          | Some v =>
              let r := parseDec v in
              if decide (r = Some 200) then normal
              else
                let c := match r with Some n => httpStatusToCode n | None => Unknown end in
                let e := StreamErr (mkStreamError c
                           (String.append "unexpected HTTP status code received from server: " v)) in
                finishStream (setStreams t (<[i := closeStreamWith s e (Some c)]> (streams t))
                                (active t)) i
          end
      end
  end.

(** Modelled from the spec: RST_STREAM handling ("terminate stream with
    mapped status"); a code missing from the table maps to Unknown. *)
Definition handleRstStream (t : transport) (i : N) (c : http2ErrCode) : transport :=
  match recvOpen t i with
  | None => t
  | Some s =>
      let rc := match http2ErrConvTab c with Some rc => rc | None => Unknown end in
      let e := StreamErr (mkStreamError rc "stream terminated by RST_STREAM") in
      finishStream (setStreams t (<[i := closeStreamWith s e (Some rc)]> (streams t))
                      (active t)) i
  end.

(** Modelled from the spec: [read(buf)] on stream [i] (section 4.5): the
    receive buffer's reader, then [onRead] on the stream window for the
    bytes handed to the application, queueing the WINDOW_UPDATE it asks for
    while the stream is active. *)
Definition Read (t : transport) (i : N) (n : nat)
  : option (list Byte.byte * option recvErr) * transport :=
  match streams t !! i with
  | None => (None, t)
  | Some s =>
      let '(r, b) := rbRead (sbuf s) n in
      let k := match r with Some (bs, _) => length bs | None => 0%nat end in
      match k with
      | O => (r, setStreams t (<[i := setBuf s b]> (streams t)) (active t))
      | _ =>
          let '(f, upd) := onRead (sfc s) (N.of_nat k) in
          let s1 := mkStream (sid s) (smethod s) (sstate s) b f (sheaderDone s) (sstatus s) in
          let t1 := setStreams t (<[i := s1]> (streams t)) (active t) in
          (r, match upd with
              | Some w => if decide (i ∈ active t) then put t1 (IWindowUpdate i w) else t1
              | None => t1
              end)
      end
  end.

(** A client transport right after [dial], with the given initial window
    for the connection and for each stream. *)
Definition newClientTransport (w : N) : transport :=
  mkTransport ClientSide Reachable 1 ∅ ∅ (newInFlow w) [] w.

(* ------------------------------------------------------------------ *)
(** ** Runs of a client transport *)

(** What the application and the peer can do to a client transport. *)
Inductive op :=
  | OpNewStream (ch : CallHdr) (md : list headerField)
  | OpWrite (i : N) (d : list Byte.byte) (last : bool)
  | OpGracefulClose
  | OpClose
  | OpData (i : N) (d : list Byte.byte) (endStream : bool)
  | OpHeaders (i : N) (hf : list headerField) (endStream : bool)
  | OpRstStream (i : N) (c : http2ErrCode)
  | OpRead (i : N) (n : nat).

(** What an operation returns to its caller. *)
Inductive event :=
  | EvNone
  | EvNewStream (r : N + recvErr)
  | EvWrite (r : option recvErr)
  | EvRead (i : N) (r : option (list Byte.byte * option recvErr)).

Definition stepOp (t : transport) (o : op) : event * transport :=
  match o with
  | OpNewStream ch md => let '(r, t') := NewStream t ch md in (EvNewStream r, t')
  | OpWrite i d last => let '(r, t') := Write t i d last in (EvWrite r, t')
  | OpGracefulClose => (EvNone, GracefulClose t)
  | OpClose => (EvNone, closeTransport t)
  | OpData i d es => (EvNone, handleData t i d es)
  | OpHeaders i hf es => (EvNone, handleHeaders t i hf es)
  | OpRstStream i c => (EvNone, handleRstStream t i c)
  | OpRead i n => let '(r, t') := Read t i n in (EvRead i r, t')
  end.

Fixpoint runOps (t : transport) (os : list op) : list event * transport :=
  match os with
  | [] => ([], t)
  | o :: rest =>
      let '(ev, t1) := stepOp t o in
      let '(evs, t2) := runOps t1 rest in
      (ev :: evs, t2)
  end.

(** The stream ids handed out by the successful [NewStream] calls of a run. *)
Fixpoint allocatedIDs (evs : list event) : list N :=
  match evs with
  | [] => []
  | EvNewStream (inl i) :: rest => i :: allocatedIDs rest
  | _ :: rest => allocatedIDs rest
  end.

(** The results of the reads of stream [i] in a run. *)
Fixpoint readsOf (i : N) (evs : list event)
  : list (option (list Byte.byte * option recvErr)) :=
  match evs with
  | [] => []
  | EvRead j r :: rest => if decide (j = i) then r :: readsOf i rest else readsOf i rest
  | _ :: rest => readsOf i rest
  end.

(** Every registered stream id is below the next id to allocate. *)
Definition wfTransport (t : transport) : Prop :=
  forall j, is_Some (streams t !! j) -> j < nextID t.

(* ------------------------------------------------------------------ *)
(** ** Server keepalive enforcement *)

(** [KeepalivePolicy] (section 5): the server's enforcement policy. *)
Record KeepalivePolicy := mkKeepalivePolicy {
  MinTime : N;                 (** in milliseconds *)
  PermitWithoutStream : bool
}.

(** A PING from the peer: its arrival time (milliseconds) and whether the
    server had streams at that moment. *)
Record pingArrival := mkPingArrival { pingAt : N; streamsPresent : bool }.

(** Frames the enforcement path emits. *)
Inductive kaFrame :=
  | FPingAck
  | FGoAway (c : http2ErrCode).

(** The enforcement state of a server transport. *)
Record kaState := mkKaState {
  pingStrikes : nat;
  lastPingAt : option N;
  kaClosed : bool;
  kaOut : list kaFrame
}.

Definition kaInit : kaState := mkKaState 0 None false [].

(** Modelled from the spec: the EnforcementPolicy of section 4.7.  While
    streams are present, or under [PermitWithoutStream], a PING that
    arrives less than [MinTime] after the previous one is a strike.
    Otherwise the policy does not permit the PING at all (the client's
    pinger of section 4.6 suspends in that case), and it is a strike
    whatever its interval: scenario 7, a server with [MinTime] only and a
    client pinging without streams, has to end in GOAWAY. *)
Definition pingStrike (pol : KeepalivePolicy) (last : option N) (p : pingArrival) : bool :=
  if streamsPresent p || PermitWithoutStream pol then
    match last with
    | Some l => pingAt p <? l + MinTime pol
    | None => false
    end
  else true.

(** The maximum number of strikes: the second one ends the connection. *)
Definition maxPingStrikes : nat := 2.

(** Modelled from the spec: the server's handling of a PING (section 4.7):
    the ACK, the strike count, and GOAWAY(ENHANCE_YOUR_CALM) and the close
    once two strikes are reached.  A closed connection ignores the PING. *)
Definition handlePing (pol : KeepalivePolicy) (st : kaState) (p : pingArrival) : kaState :=
  if kaClosed st then st
  else
    let n := if pingStrike pol (lastPingAt st) p then S (pingStrikes st) else pingStrikes st in
    let out := kaOut st ++ [FPingAck] in
    if Nat.leb maxPingStrikes n
    then mkKaState n (Some (pingAt p)) true (out ++ [FGoAway ErrCodeEnhanceYourCalm])
    else mkKaState n (Some (pingAt p)) false out.

Definition runPings (pol : KeepalivePolicy) (st : kaState) (ps : list pingArrival) : kaState :=
  fold_left (handlePing pol) ps st.

(** Every PING is permitted and arrives at least [MinTime] after the one
    before it ([last] is the time of the previous PING, if any). *)
Fixpoint pingsObey (pol : KeepalivePolicy) (last : option N) (ps : list pingArrival) : Prop :=
  match ps with
  | [] => True
  | p :: rest =>
      (streamsPresent p || PermitWithoutStream pol = true) /\
      match last with Some l => l + MinTime pol <= pingAt p | None => True end /\
      pingsObey pol (Some (pingAt p)) rest
  end.

(* ------------------------------------------------------------------ *)
(** ** A flow-controlled link: send quota against inbound window *)

(** Modelled from the spec: one direction of one window (section 3): the
    sender's send quota pool for a stream or for the connection, the DATA
    and WINDOW_UPDATE frames in transit (in order), and the receiver's
    inbound window ([inFlow]) for the same stream or connection. *)
Record link := mkLink {
  sendQuota : N;
  dataInFlight : list N;
  updInFlight : list N;
  recvFc : inFlow
}.

(** Both ends start from the same initial window. *)
Definition newLink (w : N) : link := mkLink w [] [] (newInFlow w).

(** What can happen on a link. *)
Inductive linkStep :=
  | LSend (n : N)        (** the loopy writer acquires [n] bytes of quota and sends DATA *)
  | LDeliverData         (** the oldest DATA frame reaches the receiver *)
  | LAppRead (n : N)     (** the receiver consumes [n] received bytes *)
  | LDeliverUpdate       (** the oldest WINDOW_UPDATE reaches the sender *)
  | LBdpRaise (d : N).   (** the BDP sampler widens the window by [d] *)

Definition sumN (xs : list N) : N := fold_right N.add 0 xs.

(** Modelled from the spec: a step of the link (sections 3, 4.2 and 4.3).
    A send waits for quota and a read for received data: a step that
    cannot happen yet leaves the link as it is.  [None] is a flow-control
    violation seen by the receiver's [onData]. *)
Definition stepLink (l : link) (s : linkStep) : option link :=
  match s with
  | LSend n =>
      if n <=? sendQuota l
      then Some (mkLink (sendQuota l - n) (dataInFlight l ++ [n]) (updInFlight l) (recvFc l))
      else Some l
  | LDeliverData =>
      match dataInFlight l with
      | [] => Some l
      | n :: rest =>
          match onData (recvFc l) n with
          | None => None
          | Some f => Some (mkLink (sendQuota l) rest (updInFlight l) f)
          end
      end
  | LAppRead n =>
      if n <=? pendingData (recvFc l)
      then
        let '(f, upd) := onRead (recvFc l) n in
        let us := match upd with Some w => updInFlight l ++ [w] | None => updInFlight l end in
        Some (mkLink (sendQuota l) (dataInFlight l) us f)
      else Some l
  | LDeliverUpdate =>
      match updInFlight l with
      | [] => Some l
      | w :: rest => Some (mkLink (sendQuota l + w) (dataInFlight l) rest (recvFc l))
      end
  | LBdpRaise d =>
      let f := recvFc l in
      Some (mkLink (sendQuota l) (dataInFlight l) (updInFlight l ++ [d])
              (mkInFlow (limit f) (pendingData f) (pendingUpdate f) (delta f + d)))
  end.

Fixpoint runLink (l : link) (ss : list linkStep) : option link :=
  match ss with
  | [] => Some l
  | s :: rest => match stepLink l s with Some l1 => runLink l1 rest | None => None end
  end.

(** The accounting invariant: quota, bytes in transit (DATA and
    WINDOW_UPDATE), and the receiver's [pendingData] and [pendingUpdate]
    make up the whole window [limit + delta]. *)
Definition linkBalanced (l : link) : Prop :=
  sendQuota l + sumN (dataInFlight l) + sumN (updInFlight l)
    + pendingData (recvFc l) + pendingUpdate (recvFc l)
  = limit (recvFc l) + delta (recvFc l).

(* ------------------------------------------------------------------ *)
(** ** Evolution of the stream map *)

(** A stream object evolves without losing the error its reader reported. *)
Definition keepsErr (s s' : Stream) : Prop :=
  forall e, rbErr (sbuf s) = Some e -> rbErr (sbuf s') = Some e.

(** The stream map evolves with the same ids and every stream keeps its
    reported error. *)
Definition evolves (m m' : gmap N Stream) : Prop :=
  forall j, match m !! j, m' !! j with
            | None, None => True
            | Some s, Some s' => keepsErr s s'
            | _, _ => False
            end.

(** Stream [i] has reported the error [e] to a reader. *)
Definition stickyAt (t : transport) (i : N) (e : recvErr) : Prop :=
  exists s, streams t !! i = Some s /\ rbErr (sbuf s) = Some e.

(* ------------------------------------------------------------------ *)
(** ** Connectivity states and their aggregation (balancer wrapper) *)

(** [connectivity.State]. *)
Module connectivity.
Inductive State := Idle | Connecting | Ready | TransientFailure | Shutdown.
End connectivity.
Import connectivity.

Global Instance State_eq_dec : EqDecision State.
Proof. solve_decision. Defined.

(** [uint64] arithmetic. *)
Definition uint64Mod : Z := 2 ^ 64.
Definition addU64 (a b : Z) : Z := ((a + b) mod uint64Mod)%Z.

(** [connectivityStateEvaluator]: three [uint64] counters. *)
Record connectivityStateEvaluator := mkCSE {
  numReady : Z;
  numConnecting : Z;
  numTransientFailure : Z
}.

(** One round of the counter loop of [recordTransition]: [updateVal] is
    [2*uint64(idx) - 1] (so [-1] wraps around for [idx = 0]) and the
    counter of [state], if it has one, is increased by it. *)
Definition updateCounters (cse : connectivityStateEvaluator) (p : Z * State)
  : connectivityStateEvaluator :=
  let '(idx, state) := p in
  let updateVal := ((2 * idx - 1) mod uint64Mod)%Z in
  match state with
  | Ready => mkCSE (addU64 (numReady cse) updateVal) (numConnecting cse)
               (numTransientFailure cse)
  | Connecting => mkCSE (numReady cse) (addU64 (numConnecting cse) updateVal)
                    (numTransientFailure cse)
  | TransientFailure => mkCSE (numReady cse) (numConnecting cse)
                          (addU64 (numTransientFailure cse) updateVal)
  | _ => cse
  end.

(** [recordTransition(oldState, newState)]: update the counters for
    [oldState] (index 0) and [newState] (index 1), then evaluate. *)
Definition recordTransition (cse : connectivityStateEvaluator) (oldState newState : State)
  : connectivityStateEvaluator * State :=
  let cse' := fold_left updateCounters (zip [0%Z; 1%Z] [oldState; newState]) cse in
  (cse',
   if (0 <? numReady cse')%Z then Ready
   else if (0 <? numConnecting cse')%Z then Connecting
   else TransientFailure).

(** How many of the sub-connection states [l] are [s]. *)
Definition countState (s : State) (l : list State) : nat :=
  length (filter (fun x => x = s) l).

(** The counters hold the number of sub-connections in each counted state. *)
Definition cseCounts (cse : connectivityStateEvaluator) (l : list State) : Prop :=
  numReady cse = Z.of_nat (countState Ready l) /\
  numConnecting cse = Z.of_nat (countState Connecting l) /\
  numTransientFailure cse = Z.of_nat (countState TransientFailure l).

(** The state the evaluation gives for sub-connection states [l]: Ready if
    one is ready, else Connecting if one is connecting, else
    TransientFailure. *)
Definition aggregateState (l : list State) : State :=
  if decide (Ready ∈ l) then Ready
  else if decide (Connecting ∈ l) then Connecting
  else TransientFailure.

(* ------------------------------------------------------------------ *)
(** ** The misbehaving server handler of the transport tests *)

(** The loop of [handleStreamMisbehave] in [transport_test.go]: while
    [sent < initialWindowSize] it queues [dataFrame{s.id, false, p}] on the
    control buffer, where [p] is the zeroed buffer of [http2MaxFrameLen]
    bytes, replaced once the remaining [n := initialWindowSize - sent] fits
    in a frame by [n] zero bytes for the method "foo.Connection" and by
    [n + 1] zero bytes otherwise.  [fuel] bounds the rounds; [None] is a
    loop that does not end (a frame length of 0). *)
Fixpoint misbehaveLoop (fuel : nat) (sid : N) (method : string)
    (initialWindowSize http2MaxFrameLen sent : nat) (p : list Byte.byte)
  : option (list item) :=
  match fuel with
  | O => None
  | S fuel' =>
      if (sent <? initialWindowSize)%nat then
        let n := (initialWindowSize - sent)%nat in
        let p' :=
          if (n <=? http2MaxFrameLen)%nat then
            if String.eqb method "foo.Connection" then repeat Byte.x00 n
            else repeat Byte.x00 (n + 1)
          else p in
        option_map (cons (IData sid p' false))
          (misbehaveLoop fuel' sid method initialWindowSize http2MaxFrameLen
             (sent + length p') p')
      else Some []
  end.

(** [func (h *testStreamHandler) handleStreamMisbehave(t, s)]: the frames
    it queues for stream [sid] whose method is [method].  The loop makes at
    most [initialWindowSize + 1] rounds when frames are not empty. *)
Definition handleStreamMisbehave (sid : N) (method : string)
    (initialWindowSize http2MaxFrameLen : nat) : option (list item) :=
  misbehaveLoop (S initialWindowSize) sid method initialWindowSize http2MaxFrameLen 0
    (repeat Byte.x00 http2MaxFrameLen).

(** The bytes of the DATA frames among [its]. *)
Definition dataBytes (its : list item) : nat :=
  sum_list (map (fun it => match it with IData _ d _ => length d | _ => 0%nat end) its).

(* ------------------------------------------------------------------ *)
(** ** The ping-pong server handler of the transport tests *)

(** Go's conversion [byte(v)]: the low 8 bits of [v]. *)
Definition byteN (v : N) : Byte.byte :=
  match Byte.of_N (v mod 256) with Some b => b | None => Byte.x00 end.

(** [binary.BigEndian.Uint32(b)]; [None] is the panic of its bounds check
    [_ = b[3]]. *)
Definition Uint32 (b : list Byte.byte) : option N :=
  match b with
  | b0 :: b1 :: b2 :: b3 :: _ =>
      Some (N.lor (N.lor (N.lor (Byte.to_N b3) (N.shiftl (Byte.to_N b2) 8))
                         (N.shiftl (Byte.to_N b1) 16))
                  (N.shiftl (Byte.to_N b0) 24))
  | _ => None
  end.

(** [binary.BigEndian.PutUint32(b, v)]: the four bytes it writes. *)
Definition PutUint32 (v : N) : list Byte.byte :=
  [byteN (N.shiftr v 24); byteN (N.shiftr v 16); byteN (N.shiftr v 8); byteN v].

(** What [Stream.Read(p)] does with a buffer of [n] bytes: it reads with
    [io.ReadFull], so it fills [p], or returns [io.EOF] when the stream
    ends before the first byte, or [io.ErrUnexpectedEOF] when it ends
    inside [p]; a buffer of 0 bytes is filled at once.  [inp] is what is
    left of the stream's data, which ends with EOF. *)
Inductive readResult :=
  | ReadOK (p rest : list Byte.byte)
  | ReadEOF
  | ReadUnexpectedEOF.

Definition readFull (inp : list Byte.byte) (n : nat) : readResult :=
  if (n =? 0)%nat then ReadOK [] inp
  else if (length inp =? 0)%nat then ReadEOF
  else if (length inp <? n)%nat then ReadUnexpectedEOF
  else ReadOK (take n inp) (drop n inp).

(** How [handleStreamPingPong] ends: with [WriteStatus(s, OK)] after EOF,
    or with [t.Fatalf]. *)
Inductive pingPongEnd := PPStatusOK | PPFatal.

(** The loop of [handleStreamPingPong]: read the 5-byte header, the
    message of [sz := binary.BigEndian.Uint32(header[1:])] bytes, and write
    back [buf] of [sz + 5] bytes ([uint32] arithmetic): a 0 byte, [sz]
    big-endian and the message.  The result is the buffers written and how
    the handler ends; [None] is a panic (a [buf] too short for
    [buf[1:]] and [buf[5:]] when [sz + 5] wraps around) or running out of
    [fuel]. *)
Fixpoint pingPongLoop (fuel : nat) (inp : list Byte.byte)
  : option (list (list Byte.byte) * pingPongEnd) :=
  match fuel with
  | O => None
  | S fuel' =>
      match readFull inp 5 with
      | ReadEOF => Some ([], PPStatusOK)
      | ReadUnexpectedEOF => Some ([], PPFatal)
      | ReadOK header rest =>
          match Uint32 (drop 1 header) with
          | None => None
          | Some sz =>
              match readFull rest (N.to_nat sz) with
              | ReadOK msg rest' =>
                  if (N.to_nat ((sz + 5) mod 2 ^ 32) <? 5)%nat then None
                  else
                    let buf := Byte.x00 :: PutUint32 sz ++ msg in
                    option_map (fun r => (buf :: r.1, r.2)) (pingPongLoop fuel' rest')
              | _ => Some ([], PPFatal)
              end
          end
      end
  end.

(** [func (h *testStreamHandler) handleStreamPingPong(t, s)] on a stream
    whose data is [inp]: every round reads at least 5 bytes, so
    [length inp + 1] rounds are enough. *)
Definition handleStreamPingPong (inp : list Byte.byte)
  : option (list (list Byte.byte) * pingPongEnd) :=
  pingPongLoop (S (length inp)) inp.

(** The v1 balancer wrapper of package [grpc] ([balancer_v1_wrapper.go]). *)
Module grpc.

(* ------------------------------------------------------------------ *)
(** ** The v1 balancer wrapper *)

(** Go maps whose iteration order matters to the code are association
    lists kept in iteration order: [m[k]] is [alookup], [m[k] = v] is
    [ainsert] and [delete(m, k)] is [adelete]. *)
Section amap.
Context {K V : Type} `{!EqDecision K}.

Fixpoint alookup (k : K) (m : list (K * V)) : option V :=
  match m with
  | [] => None
  | (k', v) :: m' => if decide (k = k') then Some v else alookup k m'
  end.

Fixpoint ainsert (k : K) (v : V) (m : list (K * V)) : list (K * V) :=
  match m with
  | [] => [(k, v)]
  | (k', v') :: m' =>
      if decide (k = k') then (k', v) :: m' else (k', v') :: ainsert k v m'
  end.

Definition adelete (k : K) (m : list (K * V)) : list (K * V) :=
  filter (fun p => p.1 <> k) m.
End amap.

(** [resolver.AddressType]; [Backend] is its zero value. *)
Inductive AddressType := Backend | GRPCLB.

Global Instance AddressType_eq_dec : EqDecision AddressType.
Proof. solve_decision. Defined.

(** [strings.Index(s, sep)]: the first position at which [sep] occurs in
    [s], [None] for Go's [-1]. *)
Fixpoint Index (s sep : string) : option nat :=
  if String.prefix sep s then Some 0%nat
  else match s with
       | EmptyString => None
       | String _ s' => option_map S (Index s' sep)
       end.

(** [genSplit(s, sep, 0, -1)] of the strings package for a non-empty
    [sep]: [s[:m]] is cut off in front of each occurrence and the search
    goes on in [s[m+len(sep):]]; each round removes at least one byte, so
    [fuel] bounds the number of rounds. *)
Fixpoint genSplit (fuel : nat) (s sep : string) : list string :=
  match fuel with
  | O => [s]
  | S fuel' =>
      match Index s sep with
      | None => [s]
      | Some m =>
          substring 0 m s ::
            genSplit fuel' (substring (m + String.length sep) (String.length s) s) sep
      end
  end.

(** [strings.Split(s, sep)] for a non-empty [sep]. *)
Definition Split (s sep : string) : list string :=
  genSplit (S (String.length s)) s sep.

(** The target of [Build] without its scheme:
    [targetSplitted := strings.Split(targetAddr, ":///")], and
    [targetSplitted[1]] when it has at least two elements. *)
Definition buildTargetAddr (target : string) : string :=
  let targetSplitted := Split target ":///" in
  if (2 <=? length targetSplitted)%nat then nth 1 targetSplitted ""%string else target.

Section balancerWrapper.

(** The [Metadata interface{}] of the addresses: a type whose values Go
    compares with [==] when they are part of a map key. *)
Context {metadata : Type} `{!EqDecision metadata}.

(** [Address], the v1 balancer's address type. *)
Record Address := mkAddress { Addr : string; Metadata : metadata }.

(** [resolver.Address]. *)
Record resolverAddress := mkResolverAddress {
  raAddr : string;
  raType : AddressType;
  raServerName : string;
  raMetadata : metadata
}.

Global Instance Address_eq_dec : EqDecision Address.
Proof. solve_decision. Defined.
Global Instance resolverAddress_eq_dec : EqDecision resolverAddress.
Proof. solve_decision. Defined.

(** A [balancer.SubConn] handed out by the [ClientConn] is named by a
    number; a [SubConn] variable that may hold nil is an [option N]. *)

(** [scState]: the [down] function, when not nil, is the one returned by
    the v1 balancer's [Up(a)]; it is represented by [Some a]. *)
Record scState := mkScState {
  addr : Address;
  s : State;
  down : option Address
}.

(** [balancerWrapper].  The v1 balancer and the [ClientConn] are the
    outside world (their calls are the effects below); [startCh] is
    represented by whether it has been closed. *)
Record balancerWrapper := mkBalancerWrapper {
  pickfirst : bool;
  targetAddr : string;
  csEvltr : connectivityStateEvaluator;
  state : State;
  conns : list (resolverAddress * N);
  connSt : gmap N scState;
  startChClosed : bool
}.

(** The calls the wrapper makes on the [ClientConn] ([NewSubConn] with its
    result, [RemoveSubConn], [UpdateBalancerState]), on the v1 balancer
    ([Start], [Up], the [down] function returned by [Up(a)]) and on a
    [SubConn] ([Connect], [UpdateAddresses]). *)
Inductive bwEffect :=
  | EStart (target : string)
  | ENewSubConn (addrs : list resolverAddress) (res : option N)
  | ERemoveSubConn (sc : N)
  | EUpdateBalancerState (s : State)
  | EUp (a : Address)
  | EDown (a : Address)
  | EConnect (sc : N)
  | EUpdateAddresses (sc : N) (addrs : list resolverAddress).

(** The outside world's answers: whether [Up(a)] returns a non-nil [down]
    function, and whether [NewSubConn(addrs)] fails.  A [SubConn] that
    [NewSubConn] creates is a fresh one: the [ClientConn] hands out the
    numbers [next], [next + 1], ... *)
Context (upNonNil : Address -> bool).
Context (newSubConnFails : list resolverAddress -> bool).

(** The nil value of [Metadata]. *)
Context (nilMetadata : metadata).

Definition setConnState (bw : balancerWrapper) (cse : connectivityStateEvaluator)
    (st : State) (m : gmap N scState) : balancerWrapper :=
  mkBalancerWrapper (pickfirst bw) (targetAddr bw) cse st (conns bw) m
    (startChClosed bw).

Definition setConns (bw : balancerWrapper) (c : list (resolverAddress * N))
    (m : gmap N scState) : balancerWrapper :=
  mkBalancerWrapper (pickfirst bw) (targetAddr bw) (csEvltr bw) (state bw) c m
    (startChClosed bw).

(** [func (bw *balancerWrapper) HandleSubConnStateChange(sc, s)]. *)
Definition HandleSubConnStateChange (bw : balancerWrapper) (sc : N) (s' : State)
  : balancerWrapper * list bwEffect :=
  match connSt bw !! sc with
  | None => (bw, [])
  | Some scSt =>
      let e1 := if decide (s' = Idle) then [EConnect sc] else [] in
      let oldS := s scSt in
      let '(down', e2) :=
        if decide (oldS <> Ready /\ s' = Ready) then
          (if upNonNil (addr scSt) then Some (addr scSt) else None,
           [EUp (addr scSt)])
        else if decide (oldS = Ready /\ s' <> Ready) then
          (down scSt, match down scSt with Some a => [EDown a] | None => [] end)
        else (down scSt, []) in
      let '(cse, sa) := recordTransition (csEvltr bw) oldS s' in
      let st := if decide (state bw <> sa) then sa else state bw in
      let m := <[sc := mkScState (addr scSt) s' down']> (connSt bw) in
      let m := if decide (s' = Shutdown) then delete sc m else m in
      (setConnState bw cse st m, e1 ++ e2 ++ [EUpdateBalancerState st])
  end.

(** The [resolver.Address] the wrapper makes of a v1 address:
    [resolver.Address{Addr: a.Addr, Type: resolver.Backend, ServerName: "",
    Metadata: a.Metadata}]. *)
Definition backendAddr (a : Address) : resolverAddress :=
  mkResolverAddress (Addr a) Backend "" (Metadata a).

(** The states of the sub-connections in [connSt]. *)
Definition scStates (m : gmap N scState) : list State :=
  map (fun p => s p.2) (map_to_list m).

(** The [ClientConn] reporting sub-connection state changes one after the
    other: [HandleSubConnStateChange] called for each [(sc, s)] in turn,
    the effects in order. *)
Fixpoint runStateChanges (bw : balancerWrapper) (evs : list (N * State))
  : balancerWrapper * list bwEffect :=
  match evs with
  | [] => (bw, [])
  | (sc, s') :: evs' =>
      let '(bw1, e1) := HandleSubConnStateChange bw sc s' in
      let '(bw2, e2) := runStateChanges bw1 evs' in
      (bw2, e1 ++ e2)
  end.

(** The balancer states reported to the [ClientConn] by [effs]. *)
Definition reportedStates (effs : list bwEffect) : list State :=
  omap (fun e => match e with EUpdateBalancerState st => Some st | _ => None end) effs.

(** The [Up] and [down] calls among [effs]. *)
Definition isUpDown (e : bwEffect) : bool :=
  match e with EUp _ | EDown _ => true | _ => false end.
Definition upDownCalls (effs : list bwEffect) : list bwEffect :=
  filter (fun e => isUpDown e = true) effs.

(** Errors [Pick] returns: the one of the v1 balancer's [Get], or the
    Unavailable status "there is no connection available". *)
Inductive pickError := PickGetErr (e : goError) | PickUnavailable.

(** [func (bw *balancerWrapper) Pick(ctx, opts)].  [rpcInfo] is what
    [rpcInfoFromContext(ctx)] finds (the RPC's failfast flag), [get] the
    result of the v1 balancer's [Get]: an error, or an address and
    whether its [put] function is not nil.  The result is the [SubConn],
    whether [done] is not nil, and the error. *)
Definition Pick (bw : balancerWrapper) (rpcInfo : option bool)
    (get : goError + (Address * bool)) : option N * bool * option pickError :=
  let failfast := match rpcInfo with Some ff => ff | None => true end in
  match get with
  | inl err => (None, false, Some (PickGetErr err))
  | inr (a, p) =>
      if pickfirst bw then (head (map snd (conns bw)), p, None)
      else
        let sc := alookup (backendAddr a) (conns bw) in
        if negb (bool_decide (is_Some sc)) && failfast then (None, false, Some PickUnavailable)
        else
          let scSt := match sc with Some c => connSt bw !! c | None => None end in
          if failfast && match scSt with
                         | None => true
                         | Some st => bool_decide (s st <> Ready)
                         end
          then (None, false, Some PickUnavailable)
          else (sc, p, None)
  end.

(** [resolver.Address{}]. *)
Definition zeroResolverAddress : resolverAddress :=
  mkResolverAddress "" Backend "" nilMetadata.

(** [func (bwb *balancerWrapperBuilder) Build(cc, opts)]: the new wrapper
    (no [SubConn] yet, [state] Idle, counters zero) and the calls [Build]
    makes; [pickfirst] tells whether the v1 balancer is a [*pickFirst].
    [go bw.lbWatcher()] starts the rounds modelled below. *)
Definition Build (target : string) (pickfirst : bool) : balancerWrapper * list bwEffect :=
  let targetAddr := buildTargetAddr target in
  (mkBalancerWrapper pickfirst targetAddr (mkCSE 0 0 0) Idle [] ∅ false,
   [EStart targetAddr; EUpdateBalancerState Idle]).

(** A new [scState{addr: a, s: connectivity.Idle}]. *)
Definition newScState (a : Address) : scState := mkScState a Idle None.

(** One round of the [for addrs := range notifyCh] loop of [lbWatcher] when
    the v1 balancer is pickfirst.  [next] is the [SubConn] a successful
    [NewSubConn] returns.  The first entry of [conns] is the one the
    [for oldA, oldSC = range bw.conns { break }] loop stops at; [None] is
    the nil pointer dereference of [bw.connSt[oldSC].addr = addrs[0]] when
    [oldSC] has no state. *)
Definition lbWatcherPickfirst (bw : balancerWrapper) (next : N) (addrs : list Address)
  : option (balancerWrapper * N * list bwEffect) :=
  let old := head (conns bw) in
  match addrs with
  | [] =>
      match old with
      | Some (oldA, oldSC) =>
          Some (setConns bw (adelete oldA (conns bw)) (delete oldSC (connSt bw)),
                next, [ERemoveSubConn oldSC])
      | None => Some (bw, next, [])
      end
  | a0 :: _ =>
      let newAddrs := map backendAddr addrs in
      match old with
      | None =>
          if newSubConnFails newAddrs then Some (bw, next, [ENewSubConn newAddrs None])
          else Some (setConns bw (ainsert zeroResolverAddress next (conns bw))
                       (<[next := newScState a0]> (connSt bw)),
                     N.succ next, [ENewSubConn newAddrs (Some next); EConnect next])
      | Some (_, oldSC) =>
          match connSt bw !! oldSC with
          | None => None
          | Some st =>
              Some (setConns bw (conns bw)
                      (<[oldSC := mkScState a0 (s st) (down st)]> (connSt bw)),
                    next, [EUpdateAddresses oldSC newAddrs])
          end
      end
  end.

(** What reaches a pickfirst wrapper: a round of [lbWatcher] for an
    address update of the v1 balancer, or a call of
    [HandleSubConnStateChange]. *)
Inductive bwInput :=
  | NotifyAddrs (addrs : list Address)
  | SubConnStateChange (sc : N) (st : State).

(** A pickfirst wrapper handling the inputs one after the other; [None] is
    a panic. *)
Fixpoint runPickfirst (bw : balancerWrapper) (next : N) (inps : list bwInput)
  : option (balancerWrapper * N * list bwEffect) :=
  match inps with
  | [] => Some (bw, next, [])
  | inp :: inps' =>
      let r := match inp with
               | NotifyAddrs addrs => lbWatcherPickfirst bw next addrs
               | SubConnStateChange sc st =>
                   let '(bw1, e1) := HandleSubConnStateChange bw sc st in Some (bw1, next, e1)
               end in
      match r with
      | None => None
      | Some (bw1, next1, e1) =>
          match runPickfirst bw1 next1 inps' with
          | None => None
          | Some (bw2, next2, e2) => Some (bw2, next2, e1 ++ e2)
          end
      end
  end.

(** [resAddrs] of [lbWatcher]: the update's addresses keyed by the
    [resolver.Address] made of them. *)
Definition resAddrsOf (addrs : list Address) : list (resolverAddress * Address) :=
  fold_left (fun m a => ainsert (backendAddr a) a m) addrs [].

(** One round of the [for _, a := range add] loop. *)
Definition addConn (resAddrs : list (resolverAddress * Address))
    (acc : balancerWrapper * N * list bwEffect) (a : resolverAddress)
  : balancerWrapper * N * list bwEffect :=
  let '(bw, next, effs) := acc in
  if newSubConnFails [a] then (bw, next, effs ++ [ENewSubConn [a] None])
  else
    let resA := default (mkAddress "" nilMetadata) (alookup a resAddrs) in
    (setConns bw (ainsert a next (conns bw)) (<[next := newScState resA]> (connSt bw)),
     N.succ next, effs ++ [ENewSubConn [a] (Some next); EConnect next]).

(** One round of the [for addrs := range notifyCh] loop of [lbWatcher] when
    the v1 balancer is not pickfirst.  Go leaves the iteration order of
    [resAddrs] open: [resOrder] is the order of this round.  [conns] is
    iterated in its list order. *)
Definition lbWatcherUpdate (bw : balancerWrapper) (next : N) (addrs : list Address)
    (resOrder : list resolverAddress) : balancerWrapper * N * list bwEffect :=
  let resAddrs := resAddrsOf addrs in
  let add := filter (fun a => alookup a (conns bw) = None) resOrder in
  let del := map snd (filter (fun p => alookup p.1 resAddrs = None) (conns bw)) in
  let conns' := filter (fun p => is_Some (alookup p.1 resAddrs)) (conns bw) in
  let '(bw', next', effs) :=
    fold_left (addConn resAddrs) add (setConns bw conns' (connSt bw), next, []) in
  (bw', next', effs ++ map ERemoveSubConn del).

(** The start of [lbWatcher] when the v1 balancer has no [Notify] channel
    (no resolver): one [SubConn] for [resolver.Address{Addr: targetAddr,
    Type: resolver.Backend}], whose state has the address
    [Address{Addr: targetAddr}], is created and connected. *)
Definition lbWatcherDirect (bw : balancerWrapper) (next : N)
  : balancerWrapper * N * list bwEffect :=
  let a := mkResolverAddress (targetAddr bw) Backend "" nilMetadata in
  if newSubConnFails [a] then (bw, next, [ENewSubConn [a] None])
  else (setConns bw (ainsert a next (conns bw))
          (<[next := newScState (mkAddress (targetAddr bw) nilMetadata)]> (connSt bw)),
        N.succ next, [ENewSubConn [a] (Some next); EConnect next]).

End balancerWrapper.

End grpc.

(* ================================================================== *)
(** * Theorems *)

(** C3: [ContextErr] maps the context package's deadline error to
    DeadlineExceeded, its cancellation error to Canceled and every other
    error to Internal; the description is the error's message, behind the
    prefix "Unexpected error from context packet: " in the last case. *)
Theorem ContextErr_spec (e : goError) :
  ContextErr e =
    match e with
    | CtxDeadlineExceeded => mkStreamError DeadlineExceeded (Error e)
    | CtxCanceled => mkStreamError Canceled (Error e)
    | OtherErr _ =>
        mkStreamError Internal
          (String.append "Unexpected error from context packet: " (Error e))
    end.
Proof. destruct e; reflexivity. Qed.

(* ------------------------------------------------------------------ *)
(** ** Lemmas on the transport operations *)

Lemma closeTransport_lookup_notin (t : transport) (k : N) :
  k ∉ active t -> streams (closeTransport t) !! k = streams t !! k.
Proof.
  intros Hk. unfold closeTransport; simpl.
  rewrite map_lookup_imap. destruct (streams t !! k) as [s|]; simpl; [|done].
  by rewrite decide_False.
Qed.

Lemma finishStream_lookup_self (t : transport) (i : N) :
  streams (finishStream t i) !! i = streams t !! i.
Proof.
  unfold finishStream. case_decide; [|done].
  rewrite closeTransport_lookup_notin; simpl; [done | set_solver].
Qed.

Lemma finishStream_tstate (t : transport) (i : N) :
  tstate t <> Draining -> tstate (finishStream t i) = tstate t.
Proof.
  intros H. unfold finishStream. rewrite decide_False; [done|]. simpl. tauto.
Qed.

Lemma finishStream_nextID (t : transport) (i : N) :
  nextID (finishStream t i) = nextID t.
Proof. unfold finishStream. by case_decide. Qed.

Lemma NewStream_ok (t : transport) (ch : CallHdr) (md : list headerField) :
  tstate t = Reachable ->
  NewStream t ch md =
    (inl (nextID t),
     mkTransport (side t) Reachable (nextID t + 2)
       (<[nextID t := newStreamObj (nextID t) ch (initialWindowSize t)]> (streams t))
       ({[nextID t]} ∪ active t) (connFc t)
       (controlBuf t ++ [IHeaders (nextID t) (createHeaderFields ch md) false])
       (initialWindowSize t)).
Proof. intros H. unfold NewStream. by rewrite H. Qed.

Lemma recvOpen_NewStream (t : transport) (ch : CallHdr) (md : list headerField) :
  tstate t = Reachable ->
  recvOpen (snd (NewStream t ch md)) (nextID t) =
    Some (newStreamObj (nextID t) ch (initialWindowSize t)).
Proof.
  intros H. rewrite NewStream_ok by done. unfold recvOpen; simpl.
  rewrite lookup_insert_eq, decide_True by set_solver. done.
Qed.

(** The stream a HEADERS frame terminates because of a non-200 [:status]
    without [grpc-status]. *)
Lemma handleHeaders_non200 (t : transport) (i : N) (s : Stream)
    (hf : list headerField) (v : string) (n : N) (es : bool) :
  recvOpen t i = Some s ->
  hfLookup "grpc-status" hf = None ->
  hfLookup ":status" hf = Some v ->
  parseDec v = Some n -> n <> 200 ->
  streams (handleHeaders t i hf es) !! i =
    Some (closeStreamWith s
            (StreamErr (mkStreamError (httpStatusToCode n)
               (String.append "unexpected HTTP status code received from server: " v)))
            (Some (httpStatusToCode n))).
Proof.
  intros Ho Hg Hs Hp Hn. unfold handleHeaders. rewrite Ho, Hg, Hs, Hp.
  rewrite decide_False by congruence.
  rewrite finishStream_lookup_self; simpl. by rewrite lookup_insert_eq.
Qed.

Lemma finishStream_controlBuf (t : transport) (i : N) :
  controlBuf (finishStream t i) = controlBuf t.
Proof. unfold finishStream. by case_decide. Qed.

Lemma finishStream_not_active (t : transport) (i : N) :
  i ∉ active (finishStream t i).
Proof. unfold finishStream. case_decide; simpl; set_solver. Qed.

Lemma recvOpen_put (t : transport) (it : item) (i : N) :
  recvOpen (put t it) i = recvOpen t i.
Proof. done. Qed.

Lemma recvOpen_setConnFc (t : transport) (f : inFlow) (i : N) :
  recvOpen (setConnFc t f) i = recvOpen t i.
Proof. done. Qed.

(** What [handleData] does to an open stream whose window the frame
    overruns, the connection window having room for it. *)
Lemma handleData_violation (t : transport) (i : N) (s : Stream)
    (d : list Byte.byte) (es : bool) (cf : inFlow) :
  recvOpen t i = Some s ->
  onData (connFc t) (N.of_nat (length d)) = Some cf ->
  onData (sfc s) (N.of_nat (length d)) = None ->
  exists pre cf',
    let e := StreamErr (mkStreamError Internal "flow control error") in
    handleData t i d es =
      finishStream
        (setStreams (putAll (setConnFc t cf') (pre ++ [IRstStream i ErrCodeFlowControl]))
           (<[i := closeStreamWith s e (Some Internal)]> (streams t)) (active t)) i.
Proof.
  intros Ho Hc Hs. unfold handleData. rewrite Hc.
  destruct (onRead cf (N.of_nat (length d))) as [cf' upd].
  destruct upd as [w|].
  - exists [IWindowUpdate 0 w], cf'. unfold handleStreamData.
    rewrite recvOpen_put, recvOpen_setConnFc, Ho, Hs. simpl.
    unfold putAll, setStreams, put, setConnFc; simpl.
    by rewrite <- app_assoc.
  - exists [], cf'. unfold handleStreamData.
    rewrite recvOpen_setConnFc, Ho, Hs. simpl.
    unfold putAll, setStreams, put, setConnFc; simpl. done.
Qed.

(** C2: when the peer answers a fresh client stream with a HEADERS frame
    whose [:status] is not 200 and that carries no [grpc-status] (alone, as
    a trailers-only reply, or after a first HEADERS with [:status] 200), the
    next read on the stream surfaces a StreamError whose code is the HTTP
    status table's: 400 Internal, 401 Unauthenticated, 403
    PermissionDenied, 404 Unimplemented, 429/502/503/504 Unavailable, any
    other status Unknown. *)
Theorem http_status_mapping (t : transport) (ch : CallHdr)
    (md hf : list headerField) (v : string) (n : N)
    (twoHeaders endStream : bool) (k : nat) :
  tstate t = Reachable ->
  hfLookup "grpc-status" hf = None ->
  hfLookup ":status" hf = Some v ->
  parseDec v = Some n -> n <> 200 ->
  let i := nextID t in
  let t1 := snd (NewStream t ch md) in
  let t2 := if twoHeaders then handleHeaders t1 i [(":status", "200")]%string false
            else t1 in
  let t3 := handleHeaders t2 i hf endStream in
  (exists desc, fst (Read t3 i k) =
     Some ([], Some (StreamErr (mkStreamError (httpStatusToCode n) desc)))) /\
  httpStatusToCode n =
    match n with
    | 400 => Internal | 401 => Unauthenticated | 403 => PermissionDenied
    | 404 => Unimplemented | 429 | 502 | 503 | 504 => Unavailable
    | _ => Unknown
    end.
Proof.
  intros Hr Hg Hs Hp Hn i t1 t2 t3. split.
  2:{ clear. unfold httpStatusToCode, httpStatusConvTab.
      destruct n as [|p]; [done|]. repeat (destruct p as [p|p|]; try done). }
  set (s0 := newStreamObj i ch (initialWindowSize t)).
  assert (Ho2 : exists s, recvOpen t2 i = Some s /\ sbuf s = emptyRecvBuffer).
  { pose proof (recvOpen_NewStream t ch md Hr) as Ho1. fold i t1 in Ho1.
    destruct twoHeaders; subst t2; [|by eexists].
    exists (setHeaderDone s0). split; [|done].
    unfold handleHeaders. rewrite Ho1. simpl.
    unfold recvOpen in *; simpl.
    destruct (streams t1 !! i) eqn:E; [|done].
    rewrite lookup_insert_eq.
    destruct (decide (i ∈ active t1)); [|done].
    destruct (sstate s); inversion Ho1; subst; done. }
  destruct Ho2 as (s & Ho & Hb).
  unfold t3, Read. rewrite (handleHeaders_non200 t2 i s hf v n endStream Ho Hg Hs Hp Hn).
  unfold closeStreamWith; simpl. rewrite Hb. simpl. by eexists.
Qed.

(** C1: when the peer sends DATA on an open stream that overruns the
    stream's inbound window (by any amount, one byte included) while the
    connection window has room for it, the receiving transport, client or
    server alike, queues RST_STREAM(FLOW_CONTROL_ERROR) for the stream and
    terminates it with a StreamError whose code is Internal, the code the
    HTTP/2 table gives FLOW_CONTROL_ERROR; the stream's final status is
    Internal, and a read on a stream with nothing buffered returns that
    error. *)
Theorem flow_control_violation_rst (t : transport) (i : N) (s : Stream)
    (d : list Byte.byte) (es : bool) (k : nat) :
  recvOpen t i = Some s ->
  pendingData (connFc t) + pendingUpdate (connFc t) + N.of_nat (length d)
    <= limit (connFc t) + delta (connFc t) ->
  limit (sfc s) + delta (sfc s)
    < pendingData (sfc s) + pendingUpdate (sfc s) + N.of_nat (length d) ->
  let t' := handleData t i d es in
  let se := mkStreamError Internal "flow control error" in
  In (IRstStream i ErrCodeFlowControl) (controlBuf t') /\
  http2ErrConvTab ErrCodeFlowControl = Some (Code se) /\
  streams t' !! i = Some (closeStreamWith s (StreamErr se) (Some Internal)) /\
  (i ∉ active t') /\
  (sbuf s = emptyRecvBuffer -> fst (Read t' i k) = Some ([], Some (StreamErr se))).
Proof.
  intros Ho Hc Hs t' se.
  assert (Hc' : onData (connFc t) (N.of_nat (length d)) =
                Some (mkInFlow (limit (connFc t))
                        (pendingData (connFc t) + N.of_nat (length d))
                        (pendingUpdate (connFc t)) (delta (connFc t)))).
  { unfold onData. destruct (N.ltb_spec (limit (connFc t) + delta (connFc t))
        (pendingData (connFc t) + pendingUpdate (connFc t) + N.of_nat (length d)));
      [lia | done]. }
  assert (Hs' : onData (sfc s) (N.of_nat (length d)) = None).
  { unfold onData. destruct (N.ltb_spec (limit (sfc s) + delta (sfc s))
        (pendingData (sfc s) + pendingUpdate (sfc s) + N.of_nat (length d)));
      [done | lia]. }
  destruct (handleData_violation t i s d es _ Ho Hc' Hs') as (pre & cf' & Heq).
  assert (Hl : streams t' !! i = Some (closeStreamWith s (StreamErr se) (Some Internal))).
  { unfold t'. rewrite Heq, finishStream_lookup_self. simpl. by rewrite lookup_insert_eq. }
  split; [|split; [done|split; [done|split]]].
  - unfold t'. rewrite Heq, finishStream_controlBuf. simpl.
    apply in_or_app. right. apply in_or_app. right. by left.
  - unfold t'. rewrite Heq. apply finishStream_not_active.
  - intros Hb. unfold Read. rewrite Hl. unfold closeStreamWith. simpl.
    rewrite Hb. done.
Qed.

(* ------------------------------------------------------------------ *)
(** ** Stream ids *)

Lemma closeTransport_nextID (t : transport) : nextID (closeTransport t) = nextID t.
Proof. done. Qed.

Lemma endRemote_nextID (t : transport) (i : N) (s : Stream) :
  nextID (endRemote t i s) = nextID t.
Proof. unfold endRemote. case_match; rewrite ?finishStream_nextID; done. Qed.

Create Rewrite HintDb nextid.
Global Hint Rewrite closeTransport_nextID endRemote_nextID finishStream_nextID : nextid.

Ltac nextid_solve :=
  repeat (case_match || case_decide); simpl; autorewrite with nextid; done.

Lemma Write_nextID (t : transport) (i : N) (d : list Byte.byte) (l : bool) :
  nextID (Write t i d l).2 = nextID t.
Proof. unfold Write. nextid_solve. Qed.

Lemma GracefulClose_nextID (t : transport) : nextID (GracefulClose t) = nextID t.
Proof. unfold GracefulClose. nextid_solve. Qed.

Lemma handleData_nextID (t : transport) (i : N) (d : list Byte.byte) (es : bool) :
  nextID (handleData t i d es) = nextID t.
Proof. unfold handleData, handleStreamData. nextid_solve. Qed.

Lemma handleHeaders_nextID (t : transport) (i : N) (hf : list headerField) (es : bool) :
  nextID (handleHeaders t i hf es) = nextID t.
Proof. unfold handleHeaders. nextid_solve. Qed.

Lemma handleRstStream_nextID (t : transport) (i : N) (c : http2ErrCode) :
  nextID (handleRstStream t i c) = nextID t.
Proof. unfold handleRstStream. nextid_solve. Qed.

Lemma Read_nextID (t : transport) (i : N) (n : nat) :
  nextID (Read t i n).2 = nextID t.
Proof. unfold Read. nextid_solve. Qed.

(** Only a successful [NewStream] moves [nextID], by two, and it hands out
    the old value. *)
Lemma stepOp_nextID (t : transport) (o : op) :
  match stepOp t o with
  | (EvNewStream (inl i), t') => i = nextID t /\ nextID t' = nextID t + 2
  | (_, t') => nextID t' = nextID t
  end.
Proof.
  destruct o as [ch md|i d l| | |i d es|i hf es|i c|i n]; simpl.
  - unfold NewStream. destruct (tstate t); simpl; auto.
  - pose proof (Write_nextID t i d l). destruct (Write t i d l). done.
  - apply GracefulClose_nextID.
  - done.
  - apply handleData_nextID.
  - apply handleHeaders_nextID.
  - apply handleRstStream_nextID.
  - pose proof (Read_nextID t i n). destruct (Read t i n). done.
Qed.

Lemma allocatedIDs_runOps (t : transport) (os : list op) :
  let ids := allocatedIDs (fst (runOps t os)) in
  ids = map (fun k => nextID t + 2 * N.of_nat k) (seq 0 (length ids)).
Proof.
  revert t. induction os as [|o os IH]; intros t; simpl; [done|].
  pose proof (stepOp_nextID t o) as Hs.
  destruct (stepOp t o) as [ev t1] eqn:Est.
  destruct (runOps t1 os) as [evs t2] eqn:Er. simpl.
  specialize (IH t1). rewrite Er in IH. simpl in IH.
  destruct ev as [| [i|e] | r | j r]; simpl;
    try (rewrite Hs in IH; exact IH).
  destruct Hs as [-> Hn]. rewrite Hn in IH. rewrite IH at 1. simpl.
  f_equal; [lia|].
  rewrite <- seq_shift, map_map. apply map_ext. lia.
Qed.

(** C7: on a client connection, whatever the application and the peer do,
    the successful [NewStream] calls receive the ids 1, 3, 5, ... in order:
    the k-th of them (counting from 0) gets 2k+1, i.e. the n-th gets 2n-1,
    so the ids are strictly increasing odd numbers starting at 1. *)
Theorem client_stream_ids (w : N) (os : list op) :
  let ids := allocatedIDs (fst (runOps (newClientTransport w) os)) in
  ids = map (fun k => 2 * N.of_nat k + 1) (seq 0 (length ids)).
Proof.
  intros ids. pose proof (allocatedIDs_runOps (newClientTransport w) os) as H.
  simpl in H. fold ids in H. rewrite H at 1.
  apply map_ext. lia.
Qed.

(* ------------------------------------------------------------------ *)
(** ** Sticky read errors *)

Lemma evolves_refl (m : gmap N Stream) : evolves m m.
Proof. intros j. destruct (m !! j); [intros e; done | done]. Qed.

Lemma evolves_trans (m1 m2 m3 : gmap N Stream) :
  evolves m1 m2 -> evolves m2 m3 -> evolves m1 m3.
Proof.
  intros H12 H23 j. specialize (H12 j). specialize (H23 j).
  destruct (m1 !! j), (m2 !! j), (m3 !! j); try done.
  intros e He. by apply H23, H12.
Qed.

Lemma evolves_insert (m : gmap N Stream) (i : N) (s s' : Stream) :
  m !! i = Some s -> keepsErr s s' -> evolves m (<[i := s']> m).
Proof.
  intros Hi Hk j. destruct (decide (i = j)) as [<-|Hne].
  - rewrite Hi, lookup_insert_eq. done.
  - rewrite lookup_insert_ne by done. destruct (m !! j); [intros e; done | done].
Qed.

Lemma keepsErr_rbPut (s : Stream) (c : chunk) (f : Stream -> Stream) :
  (forall x, sbuf (f x) = sbuf x) -> keepsErr s (f (setBuf s (rbPut (sbuf s) c))).
Proof. intros Hf e He. rewrite Hf. simpl. done. Qed.

Lemma keepsErr_closeStreamWith (s : Stream) (e0 : recvErr) (c : option code) :
  keepsErr s (closeStreamWith s e0 c).
Proof. intros e He. done. Qed.

Lemma keepsErr_sameBuf (s s' : Stream) : sbuf s' = sbuf s -> keepsErr s s'.
Proof. intros H e He. by rewrite H. Qed.

Lemma closeTransport_evolves (t : transport) :
  evolves (streams t) (streams (closeTransport t)).
Proof.
  intros j. unfold closeTransport; simpl. rewrite map_lookup_imap.
  destruct (streams t !! j) as [s|]; simpl; [|done].
  case_decide; [apply keepsErr_closeStreamWith | by apply keepsErr_sameBuf].
Qed.

Lemma finishStream_evolves (t : transport) (i : N) :
  evolves (streams t) (streams (finishStream t i)).
Proof.
  unfold finishStream. case_decide; [|apply evolves_refl].
  apply (closeTransport_evolves (setStreams t (streams t) (active t ∖ {[i]}))).
Qed.

Lemma endRemote_evolves (t : transport) (i : N) (s s' : Stream) :
  streams t !! i = Some s -> keepsErr s s' ->
  evolves (streams t) (streams (endRemote t i s')).
Proof.
  intros Hi Hk. unfold endRemote.
  destruct (sstate s'); simpl;
    try (eapply evolves_trans; [|apply finishStream_evolves]; simpl);
    (apply (evolves_insert _ _ s); [done|]; intros e He; by apply Hk).
Qed.

Lemma recvOpen_lookup (t : transport) (i : N) (s : Stream) :
  recvOpen t i = Some s -> streams t !! i = Some s.
Proof.
  unfold recvOpen. destruct (streams t !! i) eqn:E; [|done].
  case_decide; [|done]. case_match; congruence.
Qed.

Lemma rbRead_keepsErr (b : recvBuffer) (n : nat) (e : recvErr) :
  rbErr b = Some e -> (rbRead b n).1 = Some ([], Some e) /\ (rbRead b n).2 = b.
Proof. intros H. unfold rbRead. by rewrite H. Qed.

Lemma Write_evolves (t : transport) (i : N) (d : list Byte.byte) (l : bool) :
  evolves (streams t) (streams (Write t i d l).2).
Proof.
  unfold Write. destruct (tstate t); try apply evolves_refl;
  (destruct (streams t !! i) as [s|] eqn:Hi; [|apply evolves_refl]);
  destruct (sstate s), l; simpl; try apply evolves_refl;
  try (eapply evolves_trans; [|apply finishStream_evolves]; simpl);
  (apply (evolves_insert _ _ s); [done | by apply keepsErr_sameBuf]).
Qed.

Lemma GracefulClose_evolves (t : transport) :
  evolves (streams t) (streams (GracefulClose t)).
Proof.
  unfold GracefulClose. destruct (tstate t); try apply evolves_refl.
  case_decide; [|apply evolves_refl].
  apply (closeTransport_evolves (put (setState t Draining) (IGoAway 0 ErrCodeNo))).
Qed.

Lemma handleStreamData_evolves (t : transport) (i : N) (d : list Byte.byte) (es : bool) :
  evolves (streams t) (streams (handleStreamData t i d es)).
Proof.
  unfold handleStreamData. destruct (recvOpen t i) as [s|] eqn:Ho; [|apply evolves_refl].
  apply recvOpen_lookup in Ho.
  destruct (onData (sfc s) (N.of_nat (length d))) as [f|].
  - destruct es.
    + apply (endRemote_evolves _ _ s); [done|]. intros e He. simpl. done.
    + simpl. apply (evolves_insert _ _ s); [done|]. intros e He. simpl. done.
  - eapply evolves_trans; [|apply finishStream_evolves]. simpl.
    apply (evolves_insert _ _ s); [done | apply keepsErr_closeStreamWith].
Qed.

Lemma handleData_evolves (t : transport) (i : N) (d : list Byte.byte) (es : bool) :
  evolves (streams t) (streams (handleData t i d es)).
Proof.
  unfold handleData. destruct (onData (connFc t) (N.of_nat (length d))) as [cf|].
  - destruct (onRead cf (N.of_nat (length d))) as [cf' [w|]].
    + apply (handleStreamData_evolves (put (setConnFc t cf') (IWindowUpdate 0 w))).
    + apply (handleStreamData_evolves (setConnFc t cf')).
  - apply (closeTransport_evolves (put t (IGoAway 0 ErrCodeFlowControl))).
Qed.

Lemma handleHeaders_evolves (t : transport) (i : N) (hf : list headerField) (es : bool) :
  evolves (streams t) (streams (handleHeaders t i hf es)).
Proof.
  unfold handleHeaders. destruct (recvOpen t i) as [s|] eqn:Ho; [|apply evolves_refl].
  apply recvOpen_lookup in Ho.
  assert (Hn : evolves (streams t)
     (streams (if es then endRemote t i (setHeaderDone (setBuf s (rbPut (sbuf s) (CErr EOF))))
               else setStreams t (<[i:=setHeaderDone s]> (streams t)) (active t)))).
  { destruct es.
    - apply (endRemote_evolves _ _ s); [done|]. intros e He. simpl. done.
    - simpl. apply (evolves_insert _ _ s); [done | by apply keepsErr_sameBuf]. }
  destruct (hfLookup "grpc-status" hf).
  - destruct es.
    + apply (endRemote_evolves _ _ s); [done|]. intros e He. simpl. done.
    + simpl. apply (evolves_insert _ _ s); [done | by apply keepsErr_sameBuf].
  - destruct (hfLookup ":status" hf); [|done].
    case_decide; [done|].
    eapply evolves_trans; [|apply finishStream_evolves]. simpl.
    apply (evolves_insert _ _ s); [done | apply keepsErr_closeStreamWith].
Qed.

Lemma handleRstStream_evolves (t : transport) (i : N) (c : http2ErrCode) :
  evolves (streams t) (streams (handleRstStream t i c)).
Proof.
  unfold handleRstStream. destruct (recvOpen t i) as [s|] eqn:Ho; [|apply evolves_refl].
  apply recvOpen_lookup in Ho.
  eapply evolves_trans; [|apply finishStream_evolves]. simpl.
  apply (evolves_insert _ _ s); [done | apply keepsErr_closeStreamWith].
Qed.

Lemma Read_evolves (t : transport) (i : N) (n : nat) :
  evolves (streams t) (streams (Read t i n).2).
Proof.
  unfold Read. destruct (streams t !! i) as [s|] eqn:Hi; [|apply evolves_refl].
  destruct (rbRead (sbuf s) n) as [r b] eqn:Hr.
  assert (Hk : forall e, rbErr (sbuf s) = Some e -> rbErr b = Some e).
  { intros e He. pose proof (rbRead_keepsErr _ n _ He) as [_ Hb].
    rewrite Hr in Hb. simpl in Hb. by subst. }
  destruct (match r with Some (bs, _) => length bs | None => 0%nat end).
  - simpl. apply (evolves_insert _ _ s); [done|]. intros e He. by apply Hk.
  - destruct (onRead (sfc s) (N.of_nat (S n0))) as [f [w|]].
    + case_decide; simpl; (apply (evolves_insert _ _ s); [done|]; intros e He; by apply Hk).
    + simpl. apply (evolves_insert _ _ s); [done|]. intros e He. by apply Hk.
Qed.

Lemma evolves_stickyAt (t t' : transport) (i : N) (e : recvErr) :
  evolves (streams t) (streams t') -> stickyAt t i e -> stickyAt t' i e.
Proof.
  intros Hev (s & Hs & He). specialize (Hev i). rewrite Hs in Hev.
  destruct (streams t' !! i) as [s'|] eqn:E; simpl in Hev; [|contradiction]. exists s'. split; [done|]. by apply Hev.
Qed.

Lemma evolves_wf (t t' : transport) :
  evolves (streams t) (streams t') -> nextID t' = nextID t ->
  wfTransport t -> wfTransport t'.
Proof.
  intros Hev Hn Hw j Hj. rewrite Hn. apply Hw. specialize (Hev j).
  destruct Hj as [s' Hs']. rewrite Hs' in Hev.
  destruct (streams t !! j); [done | contradiction].
Qed.

Lemma newClientTransport_wf (w : N) : wfTransport (newClientTransport w).
Proof. intros j [s Hs]. simpl in Hs. by rewrite lookup_empty in Hs. Qed.

Lemma stepOp_sticky (t : transport) (o : op) (i : N) (e : recvErr) :
  wfTransport t -> stickyAt t i e ->
  let '(ev, t') := stepOp t o in
  wfTransport t' /\ stickyAt t' i e /\
  (forall r, ev = EvRead i r -> r = Some ([], Some e)).
Proof.
  intros Hw Hst.
  assert (Hgen : forall ev t',
            evolves (streams t) (streams t') -> nextID t' = nextID t ->
            (forall r, ev = EvRead i r -> r = Some ([], Some e)) ->
            wfTransport t' /\ stickyAt t' i e /\
            (forall r, ev = EvRead i r -> r = Some ([], Some e))).
  { intros ev t' Hev Hn Hr. split; [by eapply evolves_wf|].
    split; [by eapply evolves_stickyAt | done]. }
  destruct o as [ch md|j d l| | |j d es|j hf es|j c|j n]; unfold stepOp.
  - unfold NewStream. destruct (tstate t) eqn:Hts; cbn -[insert union singletonM lookup];
      try (split; [done | split; [done | congruence]]).
    split; [|split; [|congruence]].
    + intros k [s Hs]. cbn [nextID streams] in *.
      destruct (decide (k = nextID t)) as [->|Hne]; [lia|].
      rewrite lookup_insert_ne in Hs by congruence. enough (k < nextID t) by lia.
      apply Hw. by eexists.
    + destruct Hst as (s & Hs & He). exists s. split; [|done]. cbn [streams].
      rewrite lookup_insert_ne; [done|]. enough (i < nextID t) by lia.
      apply Hw. by eexists.
  - pose proof (Write_evolves t j d l) as Hev. pose proof (Write_nextID t j d l) as Hn.
    destruct (Write t j d l) as [r t'] eqn:E. apply (Hgen _ t'); [done|done|congruence].
  - apply Hgen; [apply GracefulClose_evolves | apply GracefulClose_nextID | congruence].
  - apply Hgen; [apply closeTransport_evolves | done | congruence].
  - apply Hgen; [apply handleData_evolves | apply handleData_nextID | congruence].
  - apply Hgen; [apply handleHeaders_evolves | apply handleHeaders_nextID | congruence].
  - apply Hgen; [apply handleRstStream_evolves | apply handleRstStream_nextID | congruence].
  - pose proof (Read_evolves t j n) as Hev. pose proof (Read_nextID t j n) as Hn.
    assert (Hr : j = i -> (Read t j n).1 = Some ([], Some e)).
    { intros ->. destruct Hst as (s & Hs & He). unfold Read. rewrite Hs.
      pose proof (rbRead_keepsErr _ n _ He) as [H1 H2].
      destruct (rbRead (sbuf s) n) as [r b]. simpl in H1, H2. by subst. }
    destruct (Read t j n) as [r t'] eqn:E.
    apply (Hgen _ t'); [done|done|]. intros r' Hev'. inversion Hev'; subst.
    by apply Hr.
Qed.

Lemma runOps_sticky (t : transport) (os : list op) (i : N) (e : recvErr) :
  wfTransport t -> stickyAt t i e ->
  Forall (fun r => r = Some ([], Some e)) (readsOf i (fst (runOps t os))).
Proof.
  revert t. induction os as [|o os IH]; intros t Hw Hst; simpl; [constructor|].
  pose proof (stepOp_sticky t o i e Hw Hst) as Hs.
  destruct (stepOp t o) as [ev t1]. destruct Hs as (Hw1 & Hst1 & Hr).
  specialize (IH t1 Hw1 Hst1). destruct (runOps t1 os) as [evs t2]. simpl in *.
  destruct ev as [| r | r | j r]; try exact IH.
  case_decide; [subst; constructor; [by apply Hr | exact IH] | exact IH].
Qed.

Lemma runOps_wf (t : transport) (os : list op) :
  wfTransport t -> wfTransport (snd (runOps t os)).
Proof.
  revert t. induction os as [|o os IH]; intros t Hw; simpl; [done|].
  assert (Hw1 : wfTransport (snd (stepOp t o))).
  { destruct o as [ch md|j d l| | |j d es|j hf es|j c|j n]; simpl.
    - unfold NewStream. destruct (tstate t); cbn -[insert union singletonM lookup]; try done.
      intros k [s Hs]. cbn [nextID streams] in *.
      destruct (decide (k = nextID t)) as [->|Hne]; [lia|].
      rewrite lookup_insert_ne in Hs by congruence. enough (k < nextID t) by lia.
      apply Hw. by eexists.
    - pose proof (Write_evolves t j d l). pose proof (Write_nextID t j d l).
      destruct (Write t j d l) eqn:E. simpl in *. by eapply evolves_wf.
    - eapply evolves_wf; [apply GracefulClose_evolves | apply GracefulClose_nextID | done].
    - eapply evolves_wf; [apply closeTransport_evolves | done | done].
    - eapply evolves_wf; [apply handleData_evolves | apply handleData_nextID | done].
    - eapply evolves_wf; [apply handleHeaders_evolves | apply handleHeaders_nextID | done].
    - eapply evolves_wf; [apply handleRstStream_evolves | apply handleRstStream_nextID | done].
    - pose proof (Read_evolves t j n). pose proof (Read_nextID t j n).
      destruct (Read t j n) eqn:E. simpl in *. by eapply evolves_wf. }
  destruct (stepOp t o) as [ev t1]. specialize (IH t1 Hw1).
  destruct (runOps t1 os). exact IH.
Qed.

Lemma rbRead_err (b b' : recvBuffer) (n : nat) (bs : list Byte.byte) (e : recvErr) :
  rbRead b n = (Some (bs, Some e), b') -> bs = [] /\ rbErr b' = Some e.
Proof.
  unfold rbRead. destruct (rbErr b) as [e0|] eqn:E.
  - intros H. inversion H; subst. done.
  - destruct (rbLast b) as [|x l]; [|intros H; inversion H].
    destruct (rbChunks b) as [|[d|e0] rest]; intros H; inversion H; subst; done.
Qed.

Lemma Read_err_sticky (t : transport) (i : N) (n : nat) (bs : list Byte.byte) (e : recvErr) :
  (Read t i n).1 = Some (bs, Some e) -> bs = [] /\ stickyAt (Read t i n).2 i e.
Proof.
  unfold Read. destruct (streams t !! i) as [s|] eqn:Hs; [|done].
  destruct (rbRead (sbuf s) n) as [r b] eqn:Hr.
  destruct r as [[bs' [e'|]]|].
  - destruct (rbRead_err _ _ _ _ _ Hr) as [-> Hb]. simpl. intros H.
    inversion H; subst. split; [done|].
    exists (setBuf s b). split; [|done]. simpl. by rewrite lookup_insert_eq.
  - destruct (length bs'); [simpl; congruence|].
    destruct (onRead (sfc s) (N.of_nat (S n0))) as [f [w|]];
      [case_decide|]; simpl; congruence.
  - simpl. congruence.
Qed.

(** C4: on a client transport reached by any run, once a read of stream
    [i] has returned an error, it returned no byte, and every later read of
    that stream returns the same error and no byte, whatever the peer and
    the application do in between (more data, another error, a reset, a
    close). *)
Theorem read_error_sticky (w : N) (pre os : list op) (i : N) (n : nat)
    (bs : list Byte.byte) (e : recvErr) :
  let t := snd (runOps (newClientTransport w) pre) in
  fst (Read t i n) = Some (bs, Some e) ->
  bs = [] /\
  Forall (fun r => r = Some ([], Some e))
    (readsOf i (fst (runOps (snd (Read t i n)) os))).
Proof.
  intros t H. destruct (Read_err_sticky t i n bs e H) as [-> Hst].
  split; [done|]. apply runOps_sticky; [|done].
  eapply evolves_wf; [apply Read_evolves | apply Read_nextID |].
  apply runOps_wf, newClientTransport_wf.
Qed.

(* ------------------------------------------------------------------ *)
(** ** Graceful close *)







Section drain.
Variable A : gset N.









End drain.







(* ------------------------------------------------------------------ *)
(** ** Reserved header names *)

Lemma isReservedHeader_In (h : string) :
  isReservedHeader h = true <-> In h reservedHeaders.
Proof.
  unfold isReservedHeader. rewrite existsb_exists. split.
  - intros (x & Hx & E). apply String.eqb_eq in E. by subst.
  - intros Hin. exists h. split; [done|]. apply String.eqb_refl.
Qed.

(** C9: [isReservedHeader] holds for exactly the eight names content-type,
    grpc-message-type, grpc-encoding, grpc-accept-encoding, grpc-message,
    grpc-status, grpc-timeout and te, and fails on every other name; a
    field of the application metadata reaches the HEADERS of a new stream
    exactly when its name is not one of them. *)
Theorem reserved_headers_exact (h : string) (ch : CallHdr) (md : list headerField) :
  (isReservedHeader h = true <->
     h = "content-type" \/ h = "grpc-message-type" \/ h = "grpc-encoding" \/
     h = "grpc-accept-encoding" \/ h = "grpc-message" \/ h = "grpc-status" \/
     h = "grpc-timeout" \/ h = "te")%string /\
  (forall f, In f (drop 6 (createHeaderFields ch md)) <->
             In f md /\ isReservedHeader f.1 = false).
Proof.
  split.
  - rewrite isReservedHeader_In. simpl. naive_solver.
  - intros f.
    change (drop 6 (createHeaderFields ch md))
      with (filter (fun f => isReservedHeader f.1 = false) md).
    rewrite <- !list_elem_of_In, list_elem_of_filter. tauto.
Qed.

(* ------------------------------------------------------------------ *)
(** ** Keepalive enforcement *)

Lemma runPings_closed (pol : KeepalivePolicy) (st : kaState) (ps : list pingArrival) :
  kaClosed st = true -> runPings pol st ps = st.
Proof.
  intros H. unfold runPings. induction ps as [|p ps IH]; [done|].
  simpl. unfold handlePing at 2. by rewrite H.
Qed.

Lemma pingStrike_fast (pol : KeepalivePolicy) (l : N) (p : pingArrival) :
  (streamsPresent p || PermitWithoutStream pol) = true -> pingAt p < l + MinTime pol ->
  pingStrike pol (Some l) p = true.
Proof. intros Hp Ht. unfold pingStrike. rewrite Hp. by apply N.ltb_lt. Qed.

Lemma pingStrike_slow (pol : KeepalivePolicy) (last : option N) (p : pingArrival) :
  (streamsPresent p || PermitWithoutStream pol) = true ->
  match last with Some l => l + MinTime pol <= pingAt p | None => True end ->
  pingStrike pol last p = false.
Proof.
  intros Hp Ht. unfold pingStrike. rewrite Hp.
  destruct last as [l|]; [|done]. apply N.ltb_ge. lia.
Qed.

Lemma pingStrike_unpermitted (pol : KeepalivePolicy) (last : option N) (p : pingArrival) :
  streamsPresent p = false -> PermitWithoutStream pol = false ->
  pingStrike pol last p = true.
Proof. intros Hs Hp. unfold pingStrike. by rewrite Hs, Hp. Qed.

Lemma runPings_cons (pol : KeepalivePolicy) (st : kaState) (p : pingArrival)
    (ps : list pingArrival) :
  runPings pol st (p :: ps) = runPings pol (handlePing pol st p) ps.
Proof. done. Qed.

Lemma In_goaway_app (out : list kaFrame) (fs : list kaFrame) :
  In (FGoAway ErrCodeEnhanceYourCalm) fs ->
  In (FGoAway ErrCodeEnhanceYourCalm) (out ++ fs).
Proof. intros H. apply in_or_app. by right. Qed.

(** Two strikes in a row close the connection with GOAWAY(ENHANCE_YOUR_CALM),
    and it stays closed. *)
Lemma two_strikes_close (pol : KeepalivePolicy) (st : kaState) (p1 p2 : pingArrival)
    (ps : list pingArrival) :
  kaClosed st = false ->
  pingStrike pol (lastPingAt st) p1 = true ->
  pingStrike pol (Some (pingAt p1)) p2 = true ->
  let st' := runPings pol st (p1 :: p2 :: ps) in
  kaClosed st' = true /\ In (FGoAway ErrCodeEnhanceYourCalm) (kaOut st').
Proof.
  intros Hc H1 H2 st'. unfold st'. rewrite !runPings_cons.
  destruct (pingStrikes st) as [|k] eqn:Hk.
  - assert (E1 : handlePing pol st p1 =
                 mkKaState 1 (Some (pingAt p1)) false (kaOut st ++ [FPingAck])).
    { unfold handlePing. by rewrite Hc, H1, Hk. }
    assert (E2 : handlePing pol (mkKaState 1 (Some (pingAt p1)) false (kaOut st ++ [FPingAck])) p2 =
                 mkKaState 2 (Some (pingAt p2)) true
                   (((kaOut st ++ [FPingAck]) ++ [FPingAck]) ++ [FGoAway ErrCodeEnhanceYourCalm])).
    { unfold handlePing. simpl. by rewrite H2. }
    rewrite E1, E2, runPings_closed by done. split; [done|].
    apply In_goaway_app. by left.
  - set (st1 := mkKaState (S (S k)) (Some (pingAt p1)) true
                  ((kaOut st ++ [FPingAck]) ++ [FGoAway ErrCodeEnhanceYourCalm])).
    assert (E1 : handlePing pol st p1 = st1).
    { unfold handlePing. by rewrite Hc, H1, Hk. }
    assert (E2 : handlePing pol st1 p2 = st1) by done.
    rewrite E1, E2, runPings_closed by done. split; [done|].
    apply In_goaway_app. by left.
Qed.

Lemma runPings_obey (pol : KeepalivePolicy) (st : kaState) (ps : list pingArrival) :
  kaClosed st = false -> pingStrikes st = 0%nat ->
  (forall c, ~ In (FGoAway c) (kaOut st)) ->
  pingsObey pol (lastPingAt st) ps ->
  let st' := runPings pol st ps in
  kaClosed st' = false /\ pingStrikes st' = 0%nat /\ forall c, ~ In (FGoAway c) (kaOut st').
Proof.
  revert st. induction ps as [|p ps IH]; intros st Hc Hs Ho Hobey st'.
  - done.
  - destruct Hobey as (Hp & Ht & Hrest).
    unfold st'. rewrite runPings_cons. unfold handlePing.
    rewrite Hc, (pingStrike_slow pol (lastPingAt st) p Hp Ht), Hs. simpl.
    apply IH; simpl; [done|done| |done].
    intros c Hin. apply in_app_or in Hin as [Hin|[Hin|[]]]; [by apply (Ho c)|done].
Qed.

(** C6 (amended): (1) once the peer has pinged, two more PINGs, each
    permitted (streams present or [PermitWithoutStream]) and each less than
    [MinTime] after the previous one, are two strikes: the server queues
    GOAWAY(ENHANCE_YOUR_CALM) and closes the connection.  (2) Without
    [PermitWithoutStream], two PINGs that arrive while no stream is present
    do the same, whatever their interval.  (3) A client whose PINGs are all
    permitted and at least [MinTime] apart is never sent a GOAWAY and its
    connection stays open. *)
Theorem keepalive_enforcement (pol : KeepalivePolicy) :
  (forall (st : kaState) (l : N) (p1 p2 : pingArrival) (ps : list pingArrival),
     kaClosed st = false -> lastPingAt st = Some l ->
     (streamsPresent p1 || PermitWithoutStream pol) = true ->
     pingAt p1 < l + MinTime pol ->
     (streamsPresent p2 || PermitWithoutStream pol) = true ->
     pingAt p2 < pingAt p1 + MinTime pol ->
     let st' := runPings pol st (p1 :: p2 :: ps) in
     kaClosed st' = true /\ In (FGoAway ErrCodeEnhanceYourCalm) (kaOut st')) /\
  (PermitWithoutStream pol = false ->
   forall (st : kaState) (p1 p2 : pingArrival) (ps : list pingArrival),
     kaClosed st = false -> streamsPresent p1 = false -> streamsPresent p2 = false ->
     let st' := runPings pol st (p1 :: p2 :: ps) in
     kaClosed st' = true /\ In (FGoAway ErrCodeEnhanceYourCalm) (kaOut st')) /\
  (forall ps : list pingArrival,
     pingsObey pol None ps ->
     let st' := runPings pol kaInit ps in
     kaClosed st' = false /\ forall c, ~ In (FGoAway c) (kaOut st')).
Proof.
  split; [|split].
  - intros st l p1 p2 ps Hc Hl Hp1 Ht1 Hp2 Ht2.
    apply two_strikes_close; [done| |].
    + rewrite Hl. by apply pingStrike_fast.
    + by apply pingStrike_fast.
  - intros Hpol st p1 p2 ps Hc Hs1 Hs2.
    apply two_strikes_close; [done| |]; by apply pingStrike_unpermitted.
  - intros ps Hobey st'.
    destruct (runPings_obey pol kaInit ps) as (Hc & _ & Ho);
      [done | done | by intros c [] | done | by split].
Qed.

(** C6, counterexample: a server whose policy has [MinTime] = 2 s and no
    [PermitWithoutStream] is pinged by a client with no stream every 3 s,
    an interval of at least [MinTime].  The client is still sent
    GOAWAY(ENHANCE_YOUR_CALM). *)
Lemma keepalive_slow_client_goaway :
  let pol := mkKeepalivePolicy 2000 false in
  let ps := [mkPingArrival 0 false; mkPingArrival 3000 false; mkPingArrival 6000 false] in
  0 + MinTime pol <= 3000 /\ 3000 + MinTime pol <= 6000 /\
  kaClosed (runPings pol kaInit ps) = true /\
  In (FGoAway ErrCodeEnhanceYourCalm) (kaOut (runPings pol kaInit ps)).
Proof.
  simpl. split; [lia|]. split; [lia|]. split; [reflexivity|].
  vm_compute. tauto.
Qed.

(* ------------------------------------------------------------------ *)
(** ** Flow-control accounting *)

Lemma sumN_app (xs ys : list N) : sumN (xs ++ ys) = sumN xs + sumN ys.
Proof. induction xs as [|x xs IH]; simpl; lia. Qed.

Lemma newLink_balanced (w : N) : linkBalanced (newLink w).
Proof. unfold linkBalanced. simpl. lia. Qed.

Lemma stepLink_balanced (l : link) (s : linkStep) :
  linkBalanced l -> exists l', stepLink l s = Some l' /\ linkBalanced l'.
Proof.
  destruct l as [q ds us [lim pd pu dl]]. unfold linkBalanced. simpl. intros Hb.
  destruct s as [n| |n| |d]; simpl.
  - destruct (N.leb_spec n q); eexists; (split; [done|]); simpl;
      rewrite ?sumN_app; simpl; lia.
  - destruct ds as [|n ds]; [by eexists|]. simpl in Hb.
    unfold onData. simpl. rewrite (proj2 (N.ltb_ge _ _)) by lia.
    eexists; split; [done|]. simpl. lia.
  - destruct (N.leb_spec n pd); [|by eexists].
    unfold onRead. simpl. destruct (N.leb_spec (lim / 4) (pu + n));
      eexists; (split; [done|]); simpl; rewrite ?sumN_app; simpl; lia.
  - destruct us as [|w us]; [by eexists|]. simpl in Hb.
    eexists; split; [done|]. simpl. lia.
  - eexists; split; [done|]. simpl. rewrite sumN_app. simpl. lia.
Qed.

Lemma runLink_balanced (l : link) (ss : list linkStep) :
  linkBalanced l -> exists l', runLink l ss = Some l' /\ linkBalanced l'.
Proof.
  revert l. induction ss as [|s ss IH]; intros l Hb; [by exists l|].
  destruct (stepLink_balanced l s Hb) as (l1 & E & Hb1). simpl. rewrite E. by apply IH.
Qed.

(** C8: on every link (a client stream and its server stream, or the two
    connection windows, in either direction), started from the same
    initial window [w] and run through any schedule of sends, deliveries,
    application reads and BDP raises, the receiver never sees a
    flow-control violation.  The sender's quota plus the bytes in transit
    plus the receiver's [pendingData] equal the receiver's estimate
    [limit + delta - pendingUpdate].  Once nothing is in transit and
    [pendingData] and [delta] are 0, the quota is exactly
    [limit - pendingUpdate]. *)
Theorem flow_control_accounting (w : N) (ss : list linkStep) :
  exists l, runLink (newLink w) ss = Some l /\
    let f := recvFc l in
    sendQuota l + sumN (dataInFlight l) + sumN (updInFlight l) + pendingData f
      = limit f + delta f - pendingUpdate f /\
    pendingUpdate f <= limit f + delta f /\
    (dataInFlight l = [] -> updInFlight l = [] -> pendingData f = 0 -> delta f = 0 ->
     sendQuota l = limit f - pendingUpdate f).
Proof.
  destruct (runLink_balanced (newLink w) ss (newLink_balanced w)) as (l & E & Hb).
  exists l. split; [done|]. unfold linkBalanced in Hb. simpl.
  split; [lia|]. split; [lia|].
  intros Hd Hu Hp Hdl. rewrite Hd, Hu, Hp, Hdl in *. simpl in Hb. lia.
Qed.

(* ------------------------------------------------------------------ *)
(** ** Concrete instances *)

(** C1 at a concrete input: a stream whose window is 4 bytes receives 5
    bytes, on a server transport and on a client transport. *)
Lemma flow_control_violation_rst_witness :
  In (IRstStream 1 ErrCodeFlowControl)
     (controlBuf (handleData
        (mkTransport ServerSide Reachable 2
           {[1 := mkStream 1 "/foo/bar" Active emptyRecvBuffer (newInFlow 4) true None]}
           {[1]} (newInFlow 65535) [] 4)
        1 [Byte.x00; Byte.x00; Byte.x00; Byte.x00; Byte.x00] false)) /\
  fst (Read (handleData
        (mkTransport ClientSide Reachable 3
           {[1 := mkStream 1 "/foo/bar" Active emptyRecvBuffer (newInFlow 4) true None]}
           {[1]} (newInFlow 65535) [] 4)
        1 [Byte.x00; Byte.x00; Byte.x00; Byte.x00; Byte.x00] false) 1 8)
  = Some ([], Some (StreamErr (mkStreamError Internal "flow control error"))).
Proof.
  split.
  - pose proof (flow_control_violation_rst
      (mkTransport ServerSide Reachable 2
         {[1 := mkStream 1 "/foo/bar" Active emptyRecvBuffer (newInFlow 4) true None]}
         {[1]} (newInFlow 65535) [] 4)
      1 (mkStream 1 "/foo/bar" Active emptyRecvBuffer (newInFlow 4) true None)
      [Byte.x00; Byte.x00; Byte.x00; Byte.x00; Byte.x00] false 8) as W.
    specialize (W ltac:(vm_compute; reflexivity) ltac:(vm_compute; congruence)
                  ltac:(vm_compute; congruence)).
    destruct W as (H & _). exact H.
  - pose proof (flow_control_violation_rst
      (mkTransport ClientSide Reachable 3
         {[1 := mkStream 1 "/foo/bar" Active emptyRecvBuffer (newInFlow 4) true None]}
         {[1]} (newInFlow 65535) [] 4)
      1 (mkStream 1 "/foo/bar" Active emptyRecvBuffer (newInFlow 4) true None)
      [Byte.x00; Byte.x00; Byte.x00; Byte.x00; Byte.x00] false 8) as W.
    specialize (W ltac:(vm_compute; reflexivity) ltac:(vm_compute; congruence)
                  ltac:(vm_compute; congruence)).
    destruct W as (_ & _ & _ & _ & H). exact (H eq_refl).
Defined.

(** C2 at a concrete input: a trailers-only reply with [:status] 401, and a
    second HEADERS frame with [:status] 401, both give Unauthenticated. *)
Lemma http_status_mapping_witness :
  (exists desc,
     fst (Read (handleHeaders (snd (NewStream (newClientTransport 65535)
                                 (mkCallHdr "localhost" "bogus/method") []))
                1 [(":status", "401")] true) 1 8)
     = Some ([], Some (StreamErr (mkStreamError Unauthenticated desc)))) /\
  (exists desc,
     fst (Read (handleHeaders
                 (handleHeaders (snd (NewStream (newClientTransport 65535)
                                   (mkCallHdr "localhost" "bogus/method") []))
                    1 [(":status", "200")] false)
                 1 [(":status", "401")] false) 1 8)
     = Some ([], Some (StreamErr (mkStreamError Unauthenticated desc)))).
Proof.
  split.
  - destruct (http_status_mapping (newClientTransport 65535)
      (mkCallHdr "localhost" "bogus/method") [] [(":status", "401")] "401" 401
      false true 8 eq_refl eq_refl eq_refl eq_refl ltac:(discriminate)) as [H _].
    exact H.
  - destruct (http_status_mapping (newClientTransport 65535)
      (mkCallHdr "localhost" "bogus/method") [] [(":status", "401")] "401" 401
      true false 8 eq_refl eq_refl eq_refl eq_refl ltac:(discriminate)) as [H _].
    exact H.
Defined.

(** C4 at a concrete input: stream 1 is reset by the peer; later data, a
    second reset and further reads do not change what reads return. *)
Lemma read_error_sticky_witness :
  let pre := [OpNewStream (mkCallHdr "localhost" "/foo/bar") [];
              OpRstStream 1 ErrCodeCancel] in
  let os := [OpData 1 [Byte.x01] false; OpRead 1 8; OpRstStream 1 ErrCodeInternal;
             OpRead 1 8] in
  let e := StreamErr (mkStreamError Canceled "stream terminated by RST_STREAM") in
  let t := snd (runOps (newClientTransport 65535) pre) in
  fst (Read t 1 8) = Some ([], Some e) /\
  Forall (fun r => r = Some ([], Some e))
    (readsOf 1 (fst (runOps (snd (Read t 1 8)) os))).
Proof.
  split; [vm_compute; reflexivity|].
  destruct (read_error_sticky 65535
     [OpNewStream (mkCallHdr "localhost" "/foo/bar") []; OpRstStream 1 ErrCodeCancel]
     [OpData 1 [Byte.x01] false; OpRead 1 8; OpRstStream 1 ErrCodeInternal; OpRead 1 8]
     1 8 [] (StreamErr (mkStreamError Canceled "stream terminated by RST_STREAM"))
     ltac:(vm_compute; reflexivity)) as [_ H].
  exact H.
Defined.


(* ------------------------------------------------------------------ *)
(** ** Connectivity state evaluator *)

Lemma addU64_dec (x : Z) :
  (1 <= x < uint64Mod)%Z -> addU64 x ((2 * 0 - 1) mod uint64Mod) = (x - 1)%Z.
Proof.
  intros Hx. unfold addU64.
  replace ((2 * 0 - 1) mod uint64Mod)%Z with (uint64Mod - 1)%Z by reflexivity.
  replace (x + (uint64Mod - 1))%Z with ((x - 1) + 1 * uint64Mod)%Z by lia.
  rewrite Z_mod_plus_full. apply Z.mod_small. lia.
Qed.

Lemma addU64_inc (x : Z) :
  (0 <= x)%Z -> (x + 1 < uint64Mod)%Z -> addU64 x ((2 * 1 - 1) mod uint64Mod) = (x + 1)%Z.
Proof.
  intros H0 H1. unfold addU64.
  replace ((2 * 1 - 1) mod uint64Mod)%Z with 1%Z by reflexivity.
  apply Z.mod_small. lia.
Qed.

Lemma countState_mid (s x : State) (l1 l2 : list State) :
  countState s (l1 ++ x :: l2) =
    (countState s l1 + countState s l2 + (if decide (x = s) then 1 else 0))%nat.
Proof.
  unfold countState. rewrite filter_app, filter_cons, length_app.
  case_decide; simpl; lia.
Qed.

Lemma countState_le (s : State) (l : list State) : (countState s l <= length l)%nat.
Proof. unfold countState. apply length_filter. Qed.

Lemma countState_pos (s : State) (l : list State) :
  (0 < Z.of_nat (countState s l))%Z <-> s ∈ l.
Proof.
  unfold countState. split.
  - intros H. destruct (filter (fun x => x = s) l) as [|y ys] eqn:E; [simpl in H; lia|].
    assert (Hy : y ∈ filter (fun x => x = s) l) by (rewrite E; left).
    apply list_elem_of_filter in Hy as [-> Hy]. done.
  - intros H. assert (Hs : s ∈ filter (fun x => x = s) l)
      by (apply list_elem_of_filter; done).
    destruct (filter (fun x => x = s) l); [inversion Hs|]. simpl. lia.
Qed.

(** The evaluation, once the counters hold the counts. *)
Lemma evaluate_aggregate (cse : connectivityStateEvaluator) (l : list State) :
  cseCounts cse l ->
  (if (0 <? numReady cse)%Z then Ready
   else if (0 <? numConnecting cse)%Z then Connecting
   else TransientFailure) = aggregateState l.
Proof.
  intros (HR & HC & _). unfold aggregateState. rewrite HR, HC.
  destruct (Z.ltb_spec 0 (Z.of_nat (countState Ready l))) as [H|H];
    [rewrite decide_True by (by apply countState_pos); done|].
  rewrite decide_False by (rewrite <- countState_pos; lia).
  destruct (Z.ltb_spec 0 (Z.of_nat (countState Connecting l))) as [H'|H'];
    [rewrite decide_True by (by apply countState_pos); done|].
  rewrite decide_False by (rewrite <- countState_pos; lia). done.
Qed.

Lemma recordTransition_counters (cse : connectivityStateEvaluator)
    (l1 l2 : list State) (oldState newState : State) :
  (Z.of_nat (length (l1 ++ oldState :: l2)) < uint64Mod)%Z ->
  cseCounts cse (l1 ++ oldState :: l2) ->
  cseCounts (fst (recordTransition cse oldState newState)) (l1 ++ newState :: l2).
Proof.
  intros Hlen (HR & HC & HT).
  rewrite length_app in Hlen. simpl in Hlen.
  pose proof (countState_le Ready l1). pose proof (countState_le Ready l2).
  pose proof (countState_le Connecting l1). pose proof (countState_le Connecting l2).
  pose proof (countState_le TransientFailure l1).
  pose proof (countState_le TransientFailure l2).
  unfold cseCounts. rewrite !countState_mid in *.
  unfold recordTransition, fold_left, zip, zip_with, fst.
  destruct oldState, newState; simpl updateCounters; cbn [numReady numConnecting numTransientFailure];
    rewrite ?HR, ?HC, ?HT; simpl Nat.add in *; rewrite ?Nat.add_0_r in *;
    repeat split;
    repeat first
      [ rewrite addU64_inc by lia
      | rewrite addU64_dec by lia ];
    try lia.
Qed.

(** [recordTransition] keeps the evaluator exact: if the counters hold
    the number of sub-connections in Ready, Connecting and
    TransientFailure, then after one of them moves from [oldState] to
    [newState] they hold the new numbers, and the state returned is Ready
    when a sub-connection is ready, else Connecting when one is
    connecting, else TransientFailure.  There must be fewer than [2^64]
    sub-connections. *)
Theorem recordTransition_aggregate (cse : connectivityStateEvaluator)
    (l1 l2 : list State) (oldState newState : State) :
  (Z.of_nat (length (l1 ++ oldState :: l2)) < uint64Mod)%Z ->
  cseCounts cse (l1 ++ oldState :: l2) ->
  let '(cse', st) := recordTransition cse oldState newState in
  cseCounts cse' (l1 ++ newState :: l2) /\ st = aggregateState (l1 ++ newState :: l2).
Proof.
  intros Hlen Hc.
  pose proof (recordTransition_counters cse l1 l2 oldState newState Hlen Hc) as H.
  destruct (recordTransition cse oldState newState) as [cse' st] eqn:E.
  simpl in H. split; [done|].
  rewrite <- (evaluate_aggregate cse' _ H).
  unfold recordTransition in E. injection E as E1 E2. by subst.
Qed.

(** Recording a transition from a state to itself changes no counter: the
    [uint64] decrement wraps around and the increment undoes it. *)
Theorem recordTransition_same_state (cse : connectivityStateEvaluator) (s : State) :
  (0 <= numReady cse < uint64Mod)%Z ->
  (0 <= numConnecting cse < uint64Mod)%Z ->
  (0 <= numTransientFailure cse < uint64Mod)%Z ->
  fst (recordTransition cse s s) = cse.
Proof.
  intros HR HC HT. destruct cse as [r c t]. simpl in *.
  assert (Hw : forall x, (0 <= x < uint64Mod)%Z ->
            addU64 (addU64 x ((2 * 0 - 1) mod uint64Mod)) ((2 * 1 - 1) mod uint64Mod) = x).
  { intros x Hx. unfold addU64. rewrite Zplus_mod_idemp_l.
    replace ((2 * 0 - 1) mod uint64Mod)%Z with (uint64Mod - 1)%Z by reflexivity.
    replace ((2 * 1 - 1) mod uint64Mod)%Z with 1%Z by reflexivity.
    replace (x + (uint64Mod - 1) + 1)%Z with (x + 1 * uint64Mod)%Z by lia.
    rewrite Z_mod_plus_full. by apply Z.mod_small. }
  unfold recordTransition. destruct s; simpl; rewrite ?Hw; done.
Qed.

(* ------------------------------------------------------------------ *)
(** ** The balancer wrapper *)

Import grpc.

Lemma countState_perm (x : State) (l l' : list State) :
  l ≡ₚ l' -> countState x l = countState x l'.
Proof. intros H. unfold countState. by rewrite H. Qed.

Lemma cseCounts_perm (cse : connectivityStateEvaluator) (l l' : list State) :
  l ≡ₚ l' -> cseCounts cse l -> cseCounts cse l'.
Proof.
  intros H. unfold cseCounts. by rewrite !(countState_perm _ l l' H).
Qed.

Lemma aggregateState_perm (l l' : list State) :
  l ≡ₚ l' -> aggregateState l = aggregateState l'.
Proof.
  intros H. assert (He : forall x, x ∈ l <-> x ∈ l') by (intros x; by rewrite H).
  unfold aggregateState. repeat case_decide; naive_solver.
Qed.

Lemma cseCounts_shutdown (cse : connectivityStateEvaluator) (l : list State) :
  cseCounts cse (Shutdown :: l) <-> cseCounts cse l.
Proof. unfold cseCounts, countState. by rewrite !filter_cons, !decide_False. Qed.

Lemma aggregateState_shutdown (l : list State) :
  aggregateState (Shutdown :: l) = aggregateState l.
Proof.
  unfold aggregateState.
  repeat case_decide; set_solver.
Qed.

Section scStates_lemmas.
Context {metadata : Type}.

Lemma scStates_delete (m : gmap N (@scState metadata)) (i : N) (x : scState) :
  m !! i = Some x -> scStates m ≡ₚ s x :: scStates (delete i m).
Proof.
  intros H. unfold scStates. rewrite <- (map_to_list_delete m i x H). done.
Qed.

Lemma scStates_insert (m : gmap N (@scState metadata)) (i : N) (x : scState) :
  scStates (<[i:=x]> m) ≡ₚ s x :: scStates (delete i m).
Proof.
  unfold scStates. rewrite <- insert_delete_eq.
  rewrite map_to_list_insert by (by rewrite lookup_delete_eq). done.
Qed.

Lemma length_scStates (m : gmap N (@scState metadata)) :
  length (scStates m) = size m.
Proof. unfold scStates. by rewrite length_map, length_map_to_list. Qed.
End scStates_lemmas.

Lemma recordTransition_snd (cse : connectivityStateEvaluator) (o n : State) :
  snd (recordTransition cse o n) =
  (if (0 <? numReady (fst (recordTransition cse o n)))%Z then Ready
   else if (0 <? numConnecting (fst (recordTransition cse o n)))%Z then Connecting
   else TransientFailure).
Proof. reflexivity. Qed.

Lemma reportedStates_app {metadata : Type} (e1 e2 : list (@bwEffect metadata)) :
  reportedStates (e1 ++ e2) = reportedStates e1 ++ reportedStates e2.
Proof. unfold reportedStates. by rewrite omap_app. Qed.

Lemma elem_of_reportedStates {metadata : Type} (effs : list (@bwEffect metadata)) st :
  EUpdateBalancerState st ∈ effs <-> st ∈ reportedStates effs.
Proof.
  unfold reportedStates. rewrite list_elem_of_omap. split.
  - intros H. by exists (EUpdateBalancerState st).
  - intros [e [He Hs]]. destruct e; try discriminate. by injection Hs as ->.
Qed.

Lemma HandleSubConnStateChange_step {metadata : Type} `{!EqDecision metadata}
    (upNonNil : @Address metadata -> bool) (bw : balancerWrapper) (sc : N) (s' : State) :
  (Z.of_nat (size (connSt bw)) < uint64Mod)%Z ->
  cseCounts (csEvltr bw) (scStates (connSt bw)) ->
  let '(bw', effs) := HandleSubConnStateChange upNonNil bw sc s' in
  cseCounts (csEvltr bw') (scStates (connSt bw')) /\
  ((bw' = bw /\ effs = []) \/
   (reportedStates effs = [state bw'] /\ state bw' = aggregateState (scStates (connSt bw')))) /\
  (size (connSt bw') <= size (connSt bw))%nat.
Proof.
  intros Hsz Hc. unfold HandleSubConnStateChange.
  destruct (connSt bw !! sc) as [scSt|] eqn:Hl.
  2:{ split; [done|]. split; [by left|done]. }
  set (l2 := scStates (delete sc (connSt bw))).
  assert (Hp : scStates (connSt bw) ≡ₚ [] ++ s scSt :: l2)
    by (by apply scStates_delete).
  assert (Hlen : (Z.of_nat (length ([] ++ s scSt :: l2)) < uint64Mod)%Z)
    by (by rewrite <- (Permutation_length Hp), length_scStates).
  pose proof (recordTransition_counters _ [] l2 (s scSt) s' Hlen
                (cseCounts_perm _ _ _ Hp Hc)) as Hn.
  pose proof (evaluate_aggregate _ _ Hn) as Ha.
  rewrite <- recordTransition_snd in Ha.
  destruct (recordTransition (csEvltr bw) (s scSt) s') as [cse sa] eqn:Er.
  simpl in Hn, Ha.
  assert (Hst : (if decide (state bw <> sa) then sa else state bw) = sa)
    by (case_decide; [done | destruct (decide (state bw = sa)); naive_solver]).
  match goal with
  | |- context [match (if decide (s scSt ≠ Ready ∧ s' = Ready) then ?a else ?b) with _ => _ end] =>
      destruct (if decide (s scSt ≠ Ready ∧ s' = Ready) then a else b) as [down' e2] eqn:Ed
  end.
  assert (He2 : reportedStates e2 = []).
  { revert Ed. repeat case_decide; intros Ed; injection Ed as _ He;
      subst e2; try destruct (down scSt); reflexivity. }
  assert (He1 : reportedStates (if decide (s' = Idle) then [@EConnect metadata sc] else []) = []).
  { destruct (decide (s' = Idle)); reflexivity. }
  rewrite Hst. cbn [connSt csEvltr state setConnState].
  rewrite !reportedStates_app, He1, He2.
  assert (Hsz' : size (<[sc:=mkScState (addr scSt) s' down']> (connSt bw)) = size (connSt bw))
    by (apply map_size_insert_Some; by exists scSt).
  destruct (decide (s' = Shutdown)) as [Hsd|Hsd].
  - subst s'. rewrite delete_insert_eq. fold l2.
    apply cseCounts_shutdown in Hn. split; [exact Hn|]. split.
    + right. split; [done|]. by rewrite <- aggregateState_shutdown.
    + rewrite map_size_delete, Hl. simpl. lia.
  - assert (Hp' : scStates (<[sc:=mkScState (addr scSt) s' down']> (connSt bw)) ≡ₚ [] ++ s' :: l2)
      by (apply scStates_insert).
    split; [by apply (cseCounts_perm _ _ _ (symmetry Hp'))|]. split.
    + right. split; [done|]. by rewrite (aggregateState_perm _ _ Hp').
    + lia.
Qed.

(** [HandleSubConnStateChange] keeps the evaluator exact: when the
    counters hold the number of tracked sub-connections in each counted
    state, they still do after the call, and every state it reports with
    [UpdateBalancerState] is the wrapper's new [state] and the aggregate of
    the tracked sub-connections' states (Ready if one is ready, else
    Connecting if one is connecting, else TransientFailure).  There must be
    fewer than [2^64] tracked sub-connections. *)
Theorem HandleSubConnStateChange_aggregate {metadata : Type} `{!EqDecision metadata}
    (upNonNil : @Address metadata -> bool) (bw : balancerWrapper) (sc : N) (s' : State) :
  (Z.of_nat (size (connSt bw)) < uint64Mod)%Z ->
  cseCounts (csEvltr bw) (scStates (connSt bw)) ->
  let '(bw', effs) := HandleSubConnStateChange upNonNil bw sc s' in
  cseCounts (csEvltr bw') (scStates (connSt bw')) /\
  (forall st, EUpdateBalancerState st ∈ effs ->
     st = state bw' /\ st = aggregateState (scStates (connSt bw'))).
Proof.
  intros Hsz Hc.
  pose proof (HandleSubConnStateChange_step upNonNil bw sc s' Hsz Hc) as H.
  destruct (HandleSubConnStateChange upNonNil bw sc s') as [bw' effs].
  destruct H as (Hc' & [[-> ->] | [Hr Ha]] & _); split; [done| |done|].
  - intros st Hin. inversion Hin.
  - intros st Hin. apply elem_of_reportedStates in Hin. rewrite Hr in Hin.
    apply list_elem_of_singleton in Hin as ->. done.
Qed.

Lemma HandleSubConnStateChange_noop_or_report {metadata : Type} `{!EqDecision metadata}
    (upNonNil : @Address metadata -> bool) (bw : balancerWrapper) (sc : N) (s' : State) :
  let '(bw', effs) := HandleSubConnStateChange upNonNil bw sc s' in
  (bw' = bw /\ effs = []) \/ reportedStates effs <> [].
Proof.
  unfold HandleSubConnStateChange.
  destruct (connSt bw !! sc) as [scSt|]; [|by left].
  match goal with
  | |- context [match (if decide (s scSt ≠ Ready ∧ s' = Ready) then ?a else ?b) with _ => _ end] =>
      destruct (if decide (s scSt ≠ Ready ∧ s' = Ready) then a else b) as [down' e2]
  end.
  destruct (recordTransition (csEvltr bw) (s scSt) s') as [cse sa].
  cbn iota beta. right. rewrite !reportedStates_app. simpl.
  intros H. apply app_nil in H as [_ H]. apply app_nil in H as [_ H]. discriminate.
Qed.

Lemma runStateChanges_no_report {metadata : Type} `{!EqDecision metadata}
    (upNonNil : @Address metadata -> bool) (bw : balancerWrapper) (evs : list (N * State)) :
  reportedStates (runStateChanges upNonNil bw evs).2 = [] ->
  (runStateChanges upNonNil bw evs).1 = bw.
Proof.
  revert bw. induction evs as [|[sc s'] evs IH]; intros bw; simpl; [done|].
  pose proof (HandleSubConnStateChange_noop_or_report upNonNil bw sc s') as H.
  destruct (HandleSubConnStateChange upNonNil bw sc s') as [bw1 e1].
  specialize (IH bw1).
  destruct (runStateChanges upNonNil bw1 evs) as [bw2 e2]. simpl in *.
  rewrite reportedStates_app. intros Hr. apply app_nil in Hr as [Hr1 Hr2].
  destruct H as [[-> ->] | H]; [by apply IH | done].
Qed.

(** Over any run of [HandleSubConnStateChange] calls the counters stay
    exact, and the last state reported to the [ClientConn] is the
    wrapper's final [state] and the aggregate of the tracked
    sub-connections' final states. *)
Theorem runStateChanges_aggregate {metadata : Type} `{!EqDecision metadata}
    (upNonNil : @Address metadata -> bool) (bw : balancerWrapper) (evs : list (N * State)) :
  (Z.of_nat (size (connSt bw)) < uint64Mod)%Z ->
  cseCounts (csEvltr bw) (scStates (connSt bw)) ->
  let '(bw', effs) := runStateChanges upNonNil bw evs in
  cseCounts (csEvltr bw') (scStates (connSt bw')) /\
  (forall st, last (reportedStates effs) = Some st ->
     st = state bw' /\ st = aggregateState (scStates (connSt bw'))).
Proof.
  revert bw. induction evs as [|[sc s'] evs IH]; intros bw Hsz Hc; simpl.
  - split; [done|]. intros st Hst. discriminate.
  - pose proof (HandleSubConnStateChange_step upNonNil bw sc s' Hsz Hc) as H.
    destruct (HandleSubConnStateChange upNonNil bw sc s') as [bw1 e1].
    destruct H as (Hc1 & Hcase & Hsz1).
    assert (Hsz1' : (Z.of_nat (size (connSt bw1)) < uint64Mod)%Z) by lia.
    specialize (IH bw1 Hsz1' Hc1).
    destruct (runStateChanges upNonNil bw1 evs) as [bw2 e2] eqn:Erun.
    destruct IH as [Hc2 IH]. split; [done|].
    intros st Hl. rewrite reportedStates_app, last_app in Hl.
    destruct (last (reportedStates e2)) as [y|] eqn:Hy.
    + injection Hl as ->. by apply IH.
    + apply last_None in Hy.
      pose proof (runStateChanges_no_report upNonNil bw1 evs) as Hid.
      rewrite Erun in Hid. simpl in Hid. specialize (Hid Hy). subst bw2.
      destruct Hcase as [[-> ->] | [Hr Ha]]; [discriminate|].
      rewrite Hr in Hl. simpl in Hl. injection Hl as <-. split; [done | exact Ha].
Qed.

Lemma upDownCalls_app {metadata : Type} (e1 e2 : list (@bwEffect metadata)) :
  upDownCalls (e1 ++ e2) = upDownCalls e1 ++ upDownCalls e2.
Proof. unfold upDownCalls. by rewrite filter_app. Qed.

Section up_down.
Context {metadata : Type} `{!EqDecision metadata}.
Context (upNonNil : @Address metadata -> bool) (sc : N) (a : @Address metadata).
Hypothesis Hup : upNonNil a = true.

(** The [n]-th [Up]/[down] call of an alternating sequence. *)
Let upDownAt (i : nat) : @bwEffect metadata := if Nat.even i then EUp a else EDown a.

(** After [n] alternating calls, the sub-connection [sc] is Ready exactly
    when [n] is odd, and then holds the [down] of [Up(a)]. *)
Let upDownInv (bw : balancerWrapper) (n : nat) : Prop :=
  match connSt bw !! sc with
  | None => Nat.even n = true
  | Some st => addr st = a /\ (s st = Ready <-> Nat.odd n = true) /\
               (s st = Ready -> down st = Some a)
  end.

Lemma HandleSubConnStateChange_upDown_step (bw : balancerWrapper) (s' : State) (n : nat) :
  upDownInv bw n ->
  let '(bw', effs) := HandleSubConnStateChange upNonNil bw sc s' in
  exists k, upDownCalls effs = map upDownAt (seq n k) /\ upDownInv bw' (n + k).
Proof.
  unfold upDownInv, HandleSubConnStateChange.
  destruct (connSt bw !! sc) as [st|] eqn:Hl.
  2:{ intros Hn. exists 0%nat. rewrite Hl, Nat.add_0_r. done. }
  intros (Ha & Hr & Hd).
  destruct (recordTransition (csEvltr bw) (s st) s') as [cse sa].
  assert (He1 : upDownCalls (if decide (s' = Idle) then [@EConnect metadata sc] else []) = [])
    by (destruct (decide (s' = Idle)); reflexivity).
  destruct (decide (s st ≠ Ready ∧ s' = Ready)) as [[Ho Hn]|H1].
  - exists 1%nat. cbn [connSt setConnState].
    rewrite !upDownCalls_app, He1. rewrite Ha, Hup.
    assert (Hev : Nat.even n = true).
    { rewrite <- Nat.negb_odd. destruct (Nat.odd n) eqn:E; [|done].
      exfalso. apply Ho, Hr. reflexivity. }
    split; [simpl; unfold upDownAt; by rewrite Hev|].
    subst s'. rewrite decide_False by done. rewrite lookup_insert_eq. simpl.
    rewrite Nat.add_1_r, Nat.odd_succ. naive_solver.
  - destruct (decide (s st = Ready ∧ s' ≠ Ready)) as [[Ho Hn]|H2].
    + exists 1%nat. cbn [connSt setConnState].
      rewrite !upDownCalls_app, He1. rewrite (Hd Ho).
      assert (Hod : Nat.odd n = true) by (by apply Hr).
      split; [simpl; unfold upDownAt; by rewrite <- Nat.negb_odd, Hod|].
      rewrite Nat.add_1_r.
      destruct (decide (s' = Shutdown)).
      * rewrite lookup_delete_eq. by rewrite Nat.even_succ.
      * rewrite lookup_insert_eq. simpl. rewrite Nat.odd_succ, <- Nat.negb_odd, Hod.
        naive_solver.
    + exists 0%nat. cbn [connSt setConnState]. rewrite Nat.add_0_r.
      rewrite !upDownCalls_app, He1. split; [done|].
      assert (Hs : s' = Ready <-> s st = Ready).
      { destruct (decide (s st = Ready)), (decide (s' = Ready)); naive_solver. }
      destruct (decide (s' = Shutdown)) as [->|].
      * rewrite lookup_delete_eq. rewrite <- Nat.negb_odd.
        destruct (Nat.odd n) eqn:E; [|done].
        exfalso. assert (Hsr : s st = Ready) by (by apply Hr).
        apply Hs in Hsr. discriminate.
      * rewrite lookup_insert_eq. simpl. naive_solver.
Qed.

Lemma runStateChanges_upDown (bw : balancerWrapper) (ss : list State) (n : nat) :
  upDownInv bw n ->
  let '(bw', effs) := runStateChanges upNonNil bw (map (pair sc) ss) in
  exists k, upDownCalls effs = map upDownAt (seq n k) /\ upDownInv bw' (n + k).
Proof.
  revert bw n. induction ss as [|s' ss IH]; intros bw n Hi; simpl.
  - exists 0%nat. rewrite Nat.add_0_r. done.
  - pose proof (HandleSubConnStateChange_upDown_step bw s' n Hi) as H.
    destruct (HandleSubConnStateChange upNonNil bw sc s') as [bw1 e1].
    destruct H as (k1 & He1 & Hi1).
    specialize (IH bw1 (n + k1)%nat Hi1).
    destruct (runStateChanges upNonNil bw1 (map (pair sc) ss)) as [bw2 e2].
    destruct IH as (k2 & He2 & Hi2).
    exists (k1 + k2)%nat. rewrite upDownCalls_app, He1, He2, Nat.add_assoc.
    split; [|done]. by rewrite seq_app, map_app.
Qed.
End up_down.

(** For a tracked sub-connection that is not Ready and whose [Up] returns a
    [down] function, the [Up] and [down] calls made over any run of its
    state changes alternate, starting with [Up(addr)]; their number is odd
    exactly when the sub-connection ends tracked and Ready. *)
Theorem runStateChanges_up_down {metadata : Type} `{!EqDecision metadata}
    (upNonNil : @Address metadata -> bool) (bw : balancerWrapper) (sc : N)
    (scSt : scState) (ss : list State) :
  connSt bw !! sc = Some scSt -> s scSt <> Ready -> upNonNil (addr scSt) = true ->
  let '(bw', effs) := runStateChanges upNonNil bw (map (pair sc) ss) in
  exists n,
    upDownCalls effs =
      map (fun i => if Nat.even i then EUp (addr scSt) else EDown (addr scSt)) (seq 0 n) /\
    (Nat.odd n = true <-> exists st, connSt bw' !! sc = Some st /\ s st = Ready).
Proof.
  intros Hl Hs Hup.
  pose proof (runStateChanges_upDown upNonNil sc (addr scSt) Hup bw ss 0) as H.
  destruct (runStateChanges upNonNil bw (map (pair sc) ss)) as [bw' effs].
  destruct H as (n & He & Hi).
  { simpl. rewrite Hl. split; [done|]. split; [|done]. split; [done|discriminate]. }
  exists n. split; [exact He|]. simpl in Hi.
  destruct (connSt bw' !! sc) as [st|].
  - destruct Hi as (_ & Hr & _). naive_solver.
  - rewrite <- Nat.negb_odd in Hi. split; [intros Ho; by rewrite Ho in Hi | naive_solver].
Qed.

(** A failfast [Pick] (no RPC info, or failfast set) on a wrapper that is
    not pickfirst returns the [SubConn] of the address [Get] gave only when
    that [SubConn] is tracked and Ready; otherwise it fails with
    Unavailable. *)
Theorem Pick_failfast {metadata : Type} `{!EqDecision metadata}
    (bw : @balancerWrapper metadata) (rpcInfo : option bool) (a : Address) (p : bool) :
  pickfirst bw = false -> rpcInfo <> Some false ->
  Pick bw rpcInfo (inr (a, p)) =
    match alookup (backendAddr a) (conns bw) with
    | Some c =>
        match connSt bw !! c with
        | Some st => if decide (s st = Ready) then (Some c, p, None)
                     else (None, false, Some PickUnavailable)
        | None => (None, false, Some PickUnavailable)
        end
    | None => (None, false, Some PickUnavailable)
    end.
Proof.
  intros Hpf Hff. unfold Pick. rewrite Hpf.
  replace (match rpcInfo with Some ff => ff | None => true end) with true
    by (destruct rpcInfo as [[]|]; congruence).
  destruct (alookup (backendAddr a) (conns bw)) as [c|]; [|done].
  simpl. destruct (connSt bw !! c) as [st|]; [|done].
  simpl. destruct (decide (s st = Ready)) as [H|H];
    [rewrite bool_decide_false by naive_solver | rewrite bool_decide_true by done]; done.
Qed.

(** A [Pick] with failfast unset on a wrapper that is not pickfirst
    returns the [SubConn] of the address [Get] gave, whatever its state,
    and a nil [SubConn] with no error when the address has none. *)
Theorem Pick_not_failfast {metadata : Type} `{!EqDecision metadata}
    (bw : @balancerWrapper metadata) (a : Address) (p : bool) :
  pickfirst bw = false ->
  Pick bw (Some false) (inr (a, p)) = (alookup (backendAddr a) (conns bw), p, None).
Proof.
  intros Hpf. unfold Pick. rewrite Hpf. simpl.
  by destruct (alookup (backendAddr a) (conns bw)).
Qed.

(** When [Pick] returns an error, the [SubConn] is nil and [done] is nil;
    the error is the one of [Get], or Unavailable, which only a failfast
    pick on a wrapper that is not pickfirst returns. *)
Theorem Pick_errors {metadata : Type} `{!EqDecision metadata}
    (bw : @balancerWrapper metadata) (rpcInfo : option bool) get sc d e :
  Pick bw rpcInfo get = (sc, d, Some e) ->
  sc = None /\ d = false /\
  match e with
  | PickGetErr err => get = inl err
  | PickUnavailable => pickfirst bw = false /\ rpcInfo <> Some false
  end.
Proof.
  unfold Pick. destruct get as [err|[a p]].
  - intros H. by injection H as <- <- <-.
  - destruct (pickfirst bw) eqn:Hpf; [discriminate|].
    destruct e as [err|]; intros Hp; destruct rpcInfo as [[]|]; simpl in Hp;
      rewrite ?andb_false_r in Hp; repeat (case_match; simpl in Hp); inversion Hp; subst; naive_solver.
Qed.

Lemma HandleSubConnStateChange_conns {metadata : Type} `{!EqDecision metadata}
    (upNonNil : @Address metadata -> bool) bw sc st :
  conns (HandleSubConnStateChange upNonNil bw sc st).1 = conns bw /\
  pickfirst (HandleSubConnStateChange upNonNil bw sc st).1 = pickfirst bw.
Proof.
  unfold HandleSubConnStateChange. destruct (connSt bw !! sc); [|done].
  repeat case_match; done.
Qed.

(** A pickfirst wrapper that starts with no [SubConn] has at most one
    entry in [conns], keyed by the zero [resolver.Address], after any
    sequence of address updates and state changes that does not panic;
    [Pick] then returns that [SubConn] (or nil) whatever the RPC's
    failfast flag. *)
Theorem runPickfirst_single_conn {metadata : Type} `{!EqDecision metadata}
    upNonNil newSubConnFails (nilMetadata : metadata)
    (bw : balancerWrapper) (next : N) (inps : list bwInput) bw' next' effs :
  conns bw = [] ->
  runPickfirst upNonNil newSubConnFails nilMetadata bw next inps = Some (bw', next', effs) ->
  exists o : option N,
    conns bw' = match o with None => [] | Some c => [(zeroResolverAddress nilMetadata, c)] end /\
    (pickfirst bw = true -> forall rpcInfo a p, Pick bw' rpcInfo (inr (a, p)) = (o, p, None)).
Proof.
  intros H0.
  assert (Hinv : exists o : option N,
    conns bw = match o with None => [] | Some c => [(zeroResolverAddress nilMetadata, c)] end)
    by (exists None; done).
  clear H0. revert bw next Hinv bw' next' effs.
  induction inps as [|inp inps IH]; intros bw next [o Ho] bw' next' effs Hrun; simpl in Hrun.
  - injection Hrun as <- <- <-. exists o. split; [done|].
    intros Hpf rpcInfo a p. unfold Pick. rewrite Hpf, Ho. by destruct o.
  - destruct inp as [addrs|sc st].
    + destruct (lbWatcherPickfirst newSubConnFails nilMetadata bw next addrs)
        as [[[bw1 next1] e1]|] eqn:Hs; [|discriminate].
      destruct (runPickfirst upNonNil newSubConnFails nilMetadata bw1 next1 inps)
        as [[[bw2 next2] e2]|] eqn:Hr; [|discriminate].
      injection Hrun as <- <- <-.
      assert (Hpf1 : pickfirst bw1 = pickfirst bw /\
                     exists o1 : option N, conns bw1 = match o1 with None => []
                       | Some c => [(zeroResolverAddress nilMetadata, c)] end).
      { unfold lbWatcherPickfirst in Hs. rewrite Ho in Hs.
        destruct o as [c|], addrs as [|a0 addrs]; simpl in Hs.
        - injection Hs as <- <- <-. split; [done|]. exists None. simpl.
          unfold adelete. rewrite filter_cons_False; [done|]. simpl. by intros [].
        - destruct (connSt bw !! c); [|discriminate].
          injection Hs as <- <- <-. split; [done|]. exists (Some c). done.
        - injection Hs as <- <- <-. split; [done|]. by exists None.
        - destruct (newSubConnFails _); injection Hs as <- <- <-; (split; [done|]).
          + by exists None.
          + exists (Some next). done. }
      destruct Hpf1 as [Hpf1 Hinv1].
      destruct (IH bw1 next1 Hinv1 bw2 next2 e2 Hr) as [o2 [Ho2 HP]].
      exists o2. split; [done|]. intros Hpf. apply HP. by rewrite Hpf1.
    + pose proof (HandleSubConnStateChange_conns upNonNil bw sc st) as [Hc Hp].
      destruct (HandleSubConnStateChange upNonNil bw sc st) as [bw1 e1]. simpl in Hc, Hp.
      destruct (runPickfirst upNonNil newSubConnFails nilMetadata bw1 next inps)
        as [[[bw2 next2] e2]|] eqn:Hr; [|discriminate].
      injection Hrun as <- <- <-.
      destruct (IH bw1 next (ex_intro _ o (eq_trans Hc Ho)) bw2 next2 e2 Hr) as [o2 [Ho2 HP]].
      exists o2. split; [done|]. intros Hpf. apply HP. by rewrite Hp.
Qed.

Lemma runStateChanges_untracked {metadata : Type} `{!EqDecision metadata}
    (upNonNil : @Address metadata -> bool) (bw : balancerWrapper) (sc : N) (ss : list State) :
  connSt bw !! sc = None ->
  runStateChanges upNonNil bw (map (pair sc) ss) = (bw, []).
Proof.
  intros Hl. induction ss as [|s' ss IH]; [done|]. simpl.
  unfold HandleSubConnStateChange at 1. rewrite Hl. by rewrite IH.
Qed.

Section amap_lemmas.
Context {K V : Type} `{!EqDecision K}.

Lemma alookup_ainsert (k k' : K) (v : V) (m : list (K * V)) :
  alookup k (ainsert k' v m) = if decide (k = k') then Some v else alookup k m.
Proof.
  induction m as [|[k'' v''] m IH]; simpl; [by destruct (decide (k = k'))|].
  destruct (decide (k' = k'')) as [->|Hne]; simpl.
  - by destruct (decide (k = k'')).
  - rewrite IH. destruct (decide (k = k'')), (decide (k = k')); congruence.
Qed.

Lemma alookup_filter (P : K -> Prop) `{!forall k, Decision (P k)} (k : K) (m : list (K * V)) :
  alookup k (filter (fun p => P p.1) m) = if decide (P k) then alookup k m else None.
Proof.
  induction m as [|[k' v'] m IH]; simpl; [by case_decide|].
  rewrite filter_cons. simpl.
  destruct (decide (P k')) as [Hk'|Hk']; simpl; rewrite IH;
    destruct (decide (k = k')) as [->|]; repeat case_decide; done.
Qed.
Lemma alookup_filter_is_Some {W : Type} (r : list (K * W)) (k : K) (m : list (K * V)) :
  alookup k (filter (fun p => is_Some (alookup p.1 r)) m) =
  if decide (is_Some (alookup k r)) then alookup k m else None.
Proof.
  induction m as [|[k' v'] m IH]; simpl; [by case_decide|].
  rewrite filter_cons. simpl.
  destruct (decide (is_Some (alookup k' r))) as [Hk'|Hk']; simpl; rewrite IH;
    destruct (decide (k = k')) as [->|]; repeat case_decide; done.
Qed.
End amap_lemmas.

(** When a pickfirst update removes all addresses, the first entry of
    [conns] is torn down: its address leaves [conns] (the other addresses
    keep their [SubConn]), its [SubConn] leaves [connSt] and is removed,
    and its transition is not recorded, whatever its state: the evaluator
    and the aggregated state are unchanged.  So if it was Ready, the
    evaluator still counts one more Ready sub-connection than are tracked;
    and later state changes of that [SubConn] are ignored. *)
Theorem lbWatcherPickfirst_teardown_stale {metadata : Type} `{!EqDecision metadata}
    upNonNil newSubConnFails (nilMetadata : metadata)
    (bw : balancerWrapper) (next : N) oldA oldSC rest :
  conns bw = (oldA, oldSC) :: rest ->
  exists bw',
    lbWatcherPickfirst newSubConnFails nilMetadata bw next [] =
      Some (bw', next, [ERemoveSubConn oldSC]) /\
    alookup oldA (conns bw') = None /\
    (forall k, k <> oldA -> alookup k (conns bw') = alookup k (conns bw)) /\
    connSt bw' !! oldSC = None /\
    csEvltr bw' = csEvltr bw /\ state bw' = state bw /\
    (forall st, connSt bw !! oldSC = Some st -> s st = Ready ->
       cseCounts (csEvltr bw) (scStates (connSt bw)) ->
       numReady (csEvltr bw') = (Z.of_nat (countState Ready (scStates (connSt bw'))) + 1)%Z) /\
    forall ss, runStateChanges upNonNil bw' (map (pair oldSC) ss) = (bw', []).
Proof.
  intros Hc.
  eexists. unfold lbWatcherPickfirst. rewrite Hc. simpl. split; [reflexivity|].
  assert (Hl0 : forall k, alookup k (adelete oldA (conns bw)) =
                  if decide (k <> oldA) then alookup k (conns bw) else None)
    by (intros k; unfold adelete; generalize (conns bw) as m;
        induction m as [|[k' v'] m IH]; simpl; [by case_decide|];
        rewrite filter_cons; simpl; repeat case_decide; simpl; rewrite ?IH;
        repeat case_decide; subst; done).
  rewrite <- Hc. cbn [conns setConns connSt csEvltr state].
  split; [rewrite Hl0; case_decide; [congruence|done]|].
  split; [intros k Hk; rewrite Hl0, Hc; simpl; repeat case_decide; congruence|].
  split; [by rewrite lookup_delete_eq|].
  split; [done|]. split; [done|]. split.
  - intros st Hl Hr (HR & _ & _). rewrite HR.
    rewrite (countState_perm _ _ _ (scStates_delete _ _ _ Hl)).
    unfold countState. rewrite filter_cons_True by done. simpl. lia.
  - intros ss. apply runStateChanges_untracked. simpl. by rewrite lookup_delete_eq.
Qed.

(** If the pickfirst [SubConn] has reported Shutdown (which drops its
    state but keeps it in [conns]), the next non-empty address update
    dereferences its missing state and panics. *)
Theorem lbWatcherPickfirst_panics_after_shutdown {metadata : Type} `{!EqDecision metadata}
    upNonNil newSubConnFails (nilMetadata : metadata)
    (bw : balancerWrapper) (next : N) oldA oldSC rest (a0 : Address) addrs :
  conns bw = (oldA, oldSC) :: rest ->
  lbWatcherPickfirst newSubConnFails nilMetadata
    (HandleSubConnStateChange upNonNil bw oldSC Shutdown).1 next (a0 :: addrs) = None.
Proof.
  intros Hc. pose proof (HandleSubConnStateChange_conns upNonNil bw oldSC Shutdown) as [Hc' _].
  assert (Hl : connSt (HandleSubConnStateChange upNonNil bw oldSC Shutdown).1 !! oldSC = None).
  { unfold HandleSubConnStateChange. destruct (connSt bw !! oldSC) eqn:E; [|done].
    repeat case_match; cbn [connSt setConnState fst];
      first [by rewrite lookup_delete_eq | congruence]. }
  unfold lbWatcherPickfirst. rewrite Hc', Hc. simpl. by rewrite Hl.
Qed.

(** Association lists *)


Section lbWatcher_lemmas.
Context {metadata : Type} `{!EqDecision metadata}.
Context (newSubConnFails : list (@resolverAddress metadata) -> bool) (nilMetadata : metadata).

Lemma resAddrsOf_fold (addrs : list (@Address metadata))
    (m : list (@resolverAddress metadata * Address)) k :
  (is_Some (alookup k (fold_left (fun m a => ainsert (backendAddr a) a m) addrs m)) <->
     k ∈ map backendAddr addrs \/ is_Some (alookup k m)) /\
  (forall a, alookup k (fold_left (fun m a => ainsert (backendAddr a) a m) addrs m) = Some a ->
     (a ∈ addrs /\ backendAddr a = k) \/ alookup k m = Some a).
Proof.
  revert m. induction addrs as [|a0 addrs IH]; intros m; simpl.
  - split; [|by right]. split; [by right|]. intros [H|H]; [inversion H|done].
  - destruct (IH (ainsert (backendAddr a0) a0 m)) as [IH1 IH2].
    rewrite alookup_ainsert in IH1, IH2. split.
    + rewrite IH1. simpl. rewrite elem_of_cons. case_decide as Hk.
      * subst. split; [intros _; left; by left | intros _; right; by eexists].
      * split; (intros [H|H]; [by left; right| by right]) || idtac.
        intros [[H|H]|H]; [done | by left | by right].
    + intros a Ha. apply IH2 in Ha. case_decide; subst.
      * destruct Ha as [[? ?]|Ha]; [left; split; [by right|done]|].
        injection Ha as ->. left. split; [by left|done].
      * destruct Ha as [[? ?]|Ha]; [left; split; [by right|done]|by right].
Qed.

Lemma resAddrsOf_lookup (addrs : list (@Address metadata)) k :
  (is_Some (alookup k (resAddrsOf addrs)) <-> k ∈ map backendAddr addrs) /\
  (forall a, alookup k (resAddrsOf addrs) = Some a -> a ∈ addrs /\ backendAddr a = k).
Proof.
  destruct (resAddrsOf_fold addrs [] k) as [H1 H2]. unfold resAddrsOf. split.
  - rewrite H1. simpl. split; [intros [H|H]; [done|by destruct H] | by left].
  - intros a Ha. by destruct (H2 a Ha).
Qed.

Lemma addConn_eq (resAddrs : list (@resolverAddress metadata * Address)) B n E a :
  addConn newSubConnFails nilMetadata resAddrs (B, n, E) a =
  if newSubConnFails [a] then (B, n, E ++ [ENewSubConn [a] None])
  else (setConns B (ainsert a n (conns B))
          (<[n := newScState (default (mkAddress "" nilMetadata) (alookup a resAddrs))]> (connSt B)),
        N.succ n, E ++ [ENewSubConn [a] (Some n); EConnect n]).
Proof. reflexivity. Qed.

Lemma addConn_fold (resAddrs : list (@resolverAddress metadata * Address))
    (L : list resolverAddress)
    (B : balancerWrapper) (n : N) (E : list bwEffect) B' n' E' :
  NoDup L ->
  fold_left (addConn newSubConnFails nilMetadata resAddrs) L (B, n, E) = (B', n', E') ->
  (n <= n')%N /\
  (forall k, k ∉ L -> alookup k (conns B') = alookup k (conns B)) /\
  (forall k, k ∈ L ->
     if newSubConnFails [k] then alookup k (conns B') = alookup k (conns B)
     else exists c, alookup k (conns B') = Some c /\ (n <= c < n')%N /\
            connSt B' !! c = Some (newScState (default (mkAddress "" nilMetadata) (alookup k resAddrs))) /\
            EConnect c ∈ E') /\
  (forall c, (c < n)%N -> connSt B' !! c = connSt B !! c) /\
  (forall c, (n' <= c)%N -> connSt B' !! c = connSt B !! c) /\
  (exists E0, E' = E ++ E0 /\ forall c, ERemoveSubConn c ∉ E0) /\
  (forall c, (n <= c < n')%N -> exists a, connSt B' !! c = Some (newScState a)) /\
  csEvltr B' = csEvltr B.
Proof.
  revert B n E. induction L as [|k0 L IH]; intros B n E Hnd Hf; cbn [fold_left] in Hf.
  - injection Hf as <- <- <-. split; [lia|]. split; [done|]. split; [intros k Hk; inversion Hk|].
    split; [done|]. split; [done|]. split; [exists []; rewrite app_nil_r; split; [done|]; intros c Hc; inversion Hc|].
    split; [intros c Hc; lia|done].
  - apply NoDup_cons in Hnd as [Hk0 Hnd].
    rewrite addConn_eq in Hf.
    destruct (newSubConnFails [k0]) eqn:Hfail.
    + destruct (IH B n _ Hnd Hf) as (Hn & Hout & Hin & Hlo & Hhi & [E0 [HE HE0]] & Hnew & Hcse).
      split; [done|]. split; [intros k Hk; apply Hout; set_solver|].
      split.
      * intros k Hk. apply elem_of_cons in Hk as [->|Hk]; [|by apply Hin].
        rewrite Hfail. by apply Hout.
      * split; [done|]. split; [done|]. split; [|done].
        exists (ENewSubConn [k0] None :: E0). rewrite HE, <- app_assoc. split; [done|].
        intros c Hc. apply elem_of_cons in Hc as [Hc|Hc]; [discriminate|]. by apply (HE0 c).
    + set (B1 := setConns B (ainsert k0 n (conns B))
                   (<[n := newScState (default (mkAddress "" nilMetadata) (alookup k0 resAddrs))]> (connSt B))) in Hf.
      destruct (IH B1 (N.succ n) _ Hnd Hf) as (Hn & Hout & Hin & Hlo & Hhi & [E0 [HE HE0]] & Hnew & Hcse).
      split; [lia|]. split.
      { intros k Hk. rewrite Hout by set_solver. simpl. rewrite alookup_ainsert.
        rewrite decide_False by set_solver. done. }
      split.
      { intros k Hk. apply elem_of_cons in Hk as [->|Hk].
        - rewrite Hfail. exists n. split; [rewrite Hout by done; simpl; by rewrite alookup_ainsert, decide_True|].
          split; [lia|]. split; [rewrite Hlo by lia; simpl; by rewrite lookup_insert_eq|].
          rewrite HE. set_solver.
        - specialize (Hin k Hk). destruct (newSubConnFails [k]).
          + rewrite Hin. simpl. rewrite alookup_ainsert, decide_False; [done|]. intros ->. done.
          + destruct Hin as (c & Hc & Hcn & Hs & HEc). exists c. split; [done|].
            split; [lia|]. split; [done|]. done. }
      split.
      { intros c Hc. rewrite Hlo by lia. simpl. rewrite lookup_insert_ne by lia. done. }
      split.
      { intros c Hc. rewrite Hhi by done. simpl. rewrite lookup_insert_ne by lia. done. }
      split.
      { exists ([ENewSubConn [k0] (Some n); EConnect n] ++ E0). rewrite HE, app_assoc. split; [done|].
        intros c Hc. apply elem_of_app in Hc as [Hc|Hc]; [|by apply (HE0 c)].
        repeat (apply elem_of_cons in Hc as [Hc|Hc]; [discriminate|]). inversion Hc. }
      split; [|done].
      intros c Hc. destruct (decide (c = n)) as [->|Hne].
      * eexists. rewrite Hlo by lia. simpl. by rewrite lookup_insert_eq.
      * apply Hnew. lia.
Qed.
End lbWatcher_lemmas.

Lemma cseCounts_idle (cse : connectivityStateEvaluator) (l : list State) :
  cseCounts cse (Idle :: l) <-> cseCounts cse l.
Proof. unfold cseCounts, countState. by rewrite !filter_cons, !decide_False. Qed.

Lemma lbWatcherUpdate_unfold {metadata : Type} `{!EqDecision metadata}
    newSubConnFails (nilMetadata : metadata) bw next addrs resOrder bw' next' effs :
  lbWatcherUpdate newSubConnFails nilMetadata bw next addrs resOrder = (bw', next', effs) ->
  exists effsAdd,
    fold_left (addConn newSubConnFails nilMetadata (resAddrsOf addrs))
      (filter (fun a => alookup a (conns bw) = None) resOrder)
      (setConns bw (filter (fun p => is_Some (alookup p.1 (resAddrsOf addrs))) (conns bw)) (connSt bw),
       next, []) = (bw', next', effsAdd) /\
    effs = effsAdd ++ map ERemoveSubConn
             (map snd (filter (fun p => alookup p.1 (resAddrsOf addrs) = None) (conns bw))).
Proof.
  unfold lbWatcherUpdate.
  match goal with |- context [fold_left ?f ?l ?a] => destruct (fold_left f l a) as [[B n] E] eqn:Hf end.
  intros H. injection H as <- <- <-. by exists E.
Qed.

(** After an address update of a wrapper that is not pickfirst, [conns]
    holds no address outside the update, keeps the [SubConn] of every
    address it already had, and has for every new address a fresh
    [SubConn] (numbered from [next]) in state Idle with the v1 address,
    which is connected, unless [NewSubConn] failed for it. *)
Theorem lbWatcherUpdate_conns {metadata : Type} `{!EqDecision metadata}
    newSubConnFails (nilMetadata : metadata) bw next addrs resOrder bw' next' effs :
  NoDup resOrder -> (forall k, k ∈ resOrder <-> k ∈ map backendAddr addrs) ->
  lbWatcherUpdate newSubConnFails nilMetadata bw next addrs resOrder = (bw', next', effs) ->
  forall k,
    (k ∉ map backendAddr addrs -> alookup k (conns bw') = None) /\
    (forall c, k ∈ map backendAddr addrs -> alookup k (conns bw) = Some c ->
       alookup k (conns bw') = Some c) /\
    (k ∈ map backendAddr addrs -> alookup k (conns bw) = None ->
       if newSubConnFails [k] then alookup k (conns bw') = None
       else exists c a, alookup k (conns bw') = Some c /\ (next <= c)%N /\
              a ∈ addrs /\ backendAddr a = k /\
              connSt bw' !! c = Some (newScState a) /\ EConnect c ∈ effs).
Proof.
  intros Hnd Hord Hu k. apply lbWatcherUpdate_unfold in Hu as [E [Hf ->]].
  apply addConn_fold in Hf as (Hn & Hout & Hin & _); [|by apply NoDup_filter].
  destruct (resAddrsOf_lookup addrs k) as [Hres1 Hres2].
  cbn [conns setConns] in Hout, Hin.
  split; [|split].
  - intros Hk. rewrite Hout.
      rewrite alookup_filter_is_Some.
      rewrite decide_False; [done|]. by rewrite Hres1.
    + rewrite list_elem_of_filter, Hord. naive_solver.
  - intros c Hk Hc. rewrite Hout.
    + rewrite alookup_filter_is_Some.
      rewrite decide_True; [done|]. by rewrite Hres1.
    + rewrite list_elem_of_filter. rewrite Hc. naive_solver.
  - intros Hk Hc.
    assert (HkL : k ∈ filter (fun a => alookup a (conns bw) = None) resOrder)
      by (rewrite list_elem_of_filter, Hord; done).
    specialize (Hin k HkL). destruct (newSubConnFails [k]).
    + rewrite Hin.
      rewrite alookup_filter_is_Some.
      case_decide; done.
    + destruct Hin as (c & Hc' & Hcn & Hs & HE). apply Hres1 in Hk as [a Ha].
      destruct (Hres2 a Ha) as [Ha1 Ha2].
      exists c, a. rewrite Ha in Hs. simpl in Hs.
      repeat split; try done; try lia. set_solver.
Qed.

(** An address update of a wrapper that is not pickfirst ends by removing
    exactly the [SubConn]s of the addresses that left, in [conns] order,
    and removes none before; it leaves the state of every existing
    [SubConn] in [connSt]. *)
Theorem lbWatcherUpdate_remove {metadata : Type} `{!EqDecision metadata}
    newSubConnFails (nilMetadata : metadata) bw next addrs resOrder bw' next' effs :
  NoDup resOrder ->
  lbWatcherUpdate newSubConnFails nilMetadata bw next addrs resOrder = (bw', next', effs) ->
  (exists effsAdd,
     effs = effsAdd ++ map ERemoveSubConn
              (map snd (filter (fun p => p.1 ∉ map backendAddr addrs) (conns bw))) /\
     forall c, ERemoveSubConn c ∉ effsAdd) /\
  (forall c, (c < next)%N -> connSt bw' !! c = connSt bw !! c).
Proof.
  intros Hnd Hu. apply lbWatcherUpdate_unfold in Hu as [E [Hf ->]].
  apply addConn_fold in Hf as (_ & _ & _ & Hlo & _ & [E0 [HE HE0]] & _); [|by apply NoDup_filter].
  split.
  - exists E. split.
    + f_equal. f_equal. f_equal. apply list_filter_iff. intros [k c]. simpl.
      destruct (resAddrsOf_lookup addrs k) as [Hres1 _]. rewrite <- Hres1.
      split; [intros H [v Hv]; congruence | intros H; by destruct (alookup k _); [exfalso; apply H|]].
    + rewrite HE. exact HE0.
  - intros c Hc. by rewrite Hlo.
Qed.

Lemma addConn_fold_counts {metadata : Type} `{!EqDecision metadata}
    newSubConnFails (nilMetadata : metadata) resAddrs (L : list resolverAddress)
    (B : balancerWrapper) (n : N) (E : list bwEffect) B' n' E' :
  fold_left (addConn newSubConnFails nilMetadata resAddrs) L (B, n, E) = (B', n', E') ->
  cseCounts (csEvltr B) (scStates (connSt B)) ->
  (forall c, (n <= c)%N -> connSt B !! c = None) ->
  cseCounts (csEvltr B') (scStates (connSt B')) /\
  (forall c, (n' <= c)%N -> connSt B' !! c = None) /\
  csEvltr B' = csEvltr B /\ state B' = state B.
Proof.
  revert B n E. induction L as [|k0 L IH]; intros B n E Hf Hc Hfr; cbn [fold_left] in Hf.
  - by injection Hf as <- <- <-.
  - rewrite addConn_eq in Hf. destruct (newSubConnFails [k0]).
    + by apply (IH B n _ Hf).
    + edestruct (IH _ _ _ Hf) as (Hc' & Hfr' & Hcse & Hst); [| |split; [exact Hc'|split; [exact Hfr'|split; [by rewrite Hcse|by rewrite Hst]]]].
      * cbn [csEvltr connSt setConns].
        eapply cseCounts_perm; [symmetry; apply scStates_insert|].
        apply cseCounts_idle. rewrite delete_id; [done|]. apply Hfr. lia.
      * intros c Hcn. cbn [connSt setConns]. rewrite lookup_insert_ne by lia. apply Hfr. lia.
Qed.

(** An address update keeps the evaluator exact: new [SubConn]s start Idle,
    which is not counted, and removed ones keep their state until they
    report Shutdown; the evaluator and the aggregated state are unchanged
    and [SubConn] numbers from [next'] on stay unused. *)
Theorem lbWatcherUpdate_counters {metadata : Type} `{!EqDecision metadata}
    newSubConnFails (nilMetadata : metadata) bw next addrs resOrder bw' next' effs :
  lbWatcherUpdate newSubConnFails nilMetadata bw next addrs resOrder = (bw', next', effs) ->
  cseCounts (csEvltr bw) (scStates (connSt bw)) ->
  (forall c, (next <= c)%N -> connSt bw !! c = None) ->
  cseCounts (csEvltr bw') (scStates (connSt bw')) /\
  (forall c, (next' <= c)%N -> connSt bw' !! c = None) /\
  csEvltr bw' = csEvltr bw /\ state bw' = state bw.
Proof.
  intros Hu Hc Hfr. apply lbWatcherUpdate_unfold in Hu as [E [Hf _]].
  apply addConn_fold_counts in Hf as (Hc' & Hfr' & Hcse & Hst); [split; [exact Hc'|split; [exact Hfr'|split; [by rewrite Hcse|by rewrite Hst]]]|done|done].
Qed.

(* ------------------------------------------------------------------ *)
(** ** The target address of [Build] *)

Lemma prefix_app (p y : string) : String.prefix p (String.append p y) = true.
Proof.
  induction p as [|c p IH]; simpl; [by destruct y|].
  destruct (ascii_dec c c); [done|congruence].
Qed.

Lemma prefix_true (p s : string) : String.prefix p s = true -> exists y, s = String.append p y.
Proof.
  revert s. induction p as [|c p IH]; intros s H; [by exists s|].
  destruct s as [|c' s]; simpl in H; [discriminate|].
  destruct (ascii_dec c c') as [->|]; [|discriminate].
  destruct (IH s H) as [y ->]. by exists y.
Qed.

Lemma Index_unfold (s sep : string) :
  Index s sep =
  if String.prefix sep s then Some 0%nat
  else match s with
       | EmptyString => None
       | String _ s' => option_map S (Index s' sep)
       end.
Proof. by destruct s. Qed.

Lemma Index_None (s sep : string) :
  ~ (exists u v, s = String.append u (String.append sep v)) -> Index s sep = None.
Proof.
  induction s as [|c s IH]; intros Hno; rewrite Index_unfold.
  - destruct (String.prefix sep "") eqn:E; [|done].
    exfalso. apply prefix_true in E as [y Hy]. apply Hno. exists ""%string, y. done.
  - destruct (String.prefix sep (String c s)) eqn:E.
    + exfalso. apply prefix_true in E as [y Hy]. apply Hno. exists ""%string, y. done.
    + rewrite IH; [done|]. intros (u & v & ->). apply Hno. by exists (String c u), v.
Qed.

Lemma sep_overlap (c : ascii) (x y : string) :
  String.prefix ":///" (String c (String.append x (String.append ":///" y))) = true ->
  exists u v, String c x = String.append u (String.append ":///" v).
Proof.
  intros H. apply prefix_true in H as [z Hz]. simpl in Hz.
  injection Hz as -> Hz.
  destruct x as [|c1 x]; simpl in Hz; [discriminate|]. injection Hz as -> Hz.
  destruct x as [|c2 x]; simpl in Hz; [discriminate|]. injection Hz as -> Hz.
  destruct x as [|c3 x]; simpl in Hz; [discriminate|]. injection Hz as -> Hz.
  exists ""%string, x. done.
Qed.

Lemma Index_first (x y : string) :
  ~ (exists u v, x = String.append u (String.append ":///" v)) ->
  Index (String.append x (String.append ":///" y)) ":///" = Some (String.length x).
Proof.
  induction x as [|c x IH]; intros Hno.
  - rewrite Index_unfold. change (String.append "" (String.append ":///" y)) with (String.append ":///" y). by rewrite prefix_app.
  - rewrite Index_unfold. change (String.append (String c x) ?z) with (String c (String.append x z)) in *.
    destruct (String.prefix ":///" (String c (String.append x (String.append ":///" y)))) eqn:E.
    + exfalso. apply Hno. by apply sep_overlap in E.
    + rewrite IH; [done|]. intros (u & v & ->). apply Hno. by exists (String c u), v.
Qed.

Lemma length_append (x y : string) :
  String.length (String.append x y) = (String.length x + String.length y)%nat.
Proof. induction x as [|c x IH]; simpl; [done|]. by rewrite IH. Qed.

Lemma substring_prefix (x z : string) : substring 0 (String.length x) (String.append x z) = x.
Proof. induction x; simpl; [by destruct z|]. by rewrite IHx. Qed.

Lemma substring_all (z : string) (l : nat) : (String.length z <= l)%nat -> substring 0 l z = z.
Proof.
  revert l. induction z as [|c z IH]; intros l Hl; simpl.
  - by destruct l.
  - destruct l as [|l]; simpl in Hl; [lia|]. rewrite IH; [done|lia].
Qed.

Lemma substring_skip (x z : string) (k l : nat) :
  substring (String.length x + k) l (String.append x z) = substring k l z.
Proof. induction x; simpl; [done|]. done. Qed.

Lemma genSplit_no_sep (f : nat) (s sep : string) :
  Index s sep = None -> genSplit f s sep = [s].
Proof. intros H. destruct f; simpl; [done|]. by rewrite H. Qed.

Lemma Split_first (x y : string) :
  ~ (exists u v, x = String.append u (String.append ":///" v)) ->
  Split (String.append x (String.append ":///" y)) ":///" =
  x :: genSplit (String.length (String.append x (String.append ":///" y))) y ":///".
Proof.
  intros Hno. unfold Split. cbn [genSplit]. rewrite Index_first by done.
  rewrite substring_prefix. f_equal. f_equal.
  rewrite substring_skip. cbn. apply substring_all.
  rewrite !length_append. simpl. lia.
Qed.

Lemma Index_occ (u v sep : string) : Index (String.append u (String.append sep v)) sep <> None.
Proof.
  induction u as [|c u IH]; rewrite Index_unfold.
  - change (String.append "" (String.append sep v)) with (String.append sep v).
    by rewrite prefix_app.
  - destruct (String.prefix sep _); [done|].
    change (String.append (String c u) ?z) with (String c (String.append u z)). cbv beta iota.
    destruct (Index (String.append u (String.append sep v)) sep); done.
Qed.

Lemma Index_None_iff (s sep : string) :
  Index s sep = None <-> ~ (exists u v, s = String.append u (String.append sep v)).
Proof.
  split.
  - intros H (u & v & ->). by apply (Index_occ u v sep).
  - apply Index_None.
Qed.

(** [Build] keeps the target as the address when it has no ":///";
    otherwise the address is the text between the first ":///" and the
    next one (or the end).  [Build] starts the v1 balancer with that
    address and reports Idle. *)
Theorem Build_targetAddr_thm (metadata : Type) (pf : bool) (target scheme mid tail : string) :
  Index scheme ":///" = None -> Index mid ":///" = None ->
  (Index target ":///" = None -> targetAddr (fst (@Build metadata target pf)) = target) /\
  targetAddr (fst (@Build metadata (String.append scheme (String.append ":///" mid)) pf)) = mid /\
  targetAddr (fst (@Build metadata
     (String.append scheme (String.append ":///" (String.append mid (String.append ":///" tail)))) pf)) = mid /\
  snd (@Build metadata target pf) =
    [EStart (targetAddr (fst (@Build metadata target pf))); EUpdateBalancerState Idle].
Proof.
  intros Hs Hm. apply Index_None_iff in Hs, Hm.
  split_and!; cbn [Build fst snd targetAddr]; unfold buildTargetAddr.
  - intros Ht. unfold Split. rewrite genSplit_no_sep by done. done.
  - rewrite Split_first by done.
    remember (String.length _) as n eqn:En.
    destruct n as [|n]; [done|]. cbn [genSplit].
    apply Index_None_iff in Hm. rewrite Hm. done.
  - rewrite Split_first by done.
    remember (String.length _) as n eqn:En.
    destruct n as [|n]; [rewrite length_append in En; simpl in En; lia|]. cbn [genSplit].
    rewrite Index_first by done. rewrite substring_prefix. done.
  - done.
Qed.

(* ------------------------------------------------------------------ *)
(** ** The balancer wrapper without a resolver *)

Lemma HandleSubConnStateChange_lookup {metadata : Type} `{!EqDecision metadata}
    (upNonNil : @Address metadata -> bool) (bw : balancerWrapper) (sc : N) (st : scState)
    (s' : State) :
  connSt bw !! sc = Some st ->
  (s' = Shutdown -> connSt (HandleSubConnStateChange upNonNil bw sc s').1 !! sc = None) /\
  (s' <> Shutdown -> exists st',
     connSt (HandleSubConnStateChange upNonNil bw sc s').1 !! sc = Some st' /\ s st' = s').
Proof.
  intros Hl. unfold HandleSubConnStateChange. rewrite Hl.
  match goal with
  | |- context [match (if decide (s st ≠ Ready ∧ s' = Ready) then ?a else ?b) with _ => _ end] =>
      destruct (if decide (s st ≠ Ready ∧ s' = Ready) then a else b) as [down' e2]
  end.
  destruct (recordTransition (csEvltr bw) (s st) s') as [cse sa].
  cbn [fst connSt setConnState].
  destruct (decide (s' = Shutdown)) as [->|Hs]; split; intros H; try done.
  - by rewrite lookup_delete_eq.
  - eexists. by rewrite lookup_insert_eq.
Qed.

Lemma runStateChanges_tracked {metadata : Type} `{!EqDecision metadata}
    (upNonNil : @Address metadata -> bool) (bw : balancerWrapper) (sc : N) (st : scState)
    (ss : list State) :
  connSt bw !! sc = Some st ->
  let bw' := (runStateChanges upNonNil bw (map (pair sc) ss)).1 in
  conns bw' = conns bw /\ pickfirst bw' = pickfirst bw /\
  (Shutdown ∈ ss -> connSt bw' !! sc = None) /\
  (Shutdown ∉ ss -> exists st', connSt bw' !! sc = Some st' /\ s st' = default (s st) (last ss)).
Proof.
  revert bw st. induction ss as [|s' ss IH]; intros bw st Hl; simpl.
  { split_and!; [done|done| |].
    - intros H. by apply elem_of_nil in H.
    - intros _. by exists st. }
  pose proof (HandleSubConnStateChange_conns upNonNil bw sc s') as [Hc Hp].
  pose proof (HandleSubConnStateChange_lookup upNonNil bw sc st s' Hl) as [Hsd Hns].
  destruct (HandleSubConnStateChange upNonNil bw sc s') as [bw1 e1] eqn:E1.
  simpl in Hc, Hp, Hsd, Hns.
  destruct (decide (s' = Shutdown)) as [->|Hs].
  - rewrite (runStateChanges_untracked upNonNil bw1 sc ss (Hsd eq_refl)). simpl.
    split_and!; [done|done| |].
    + intros _. by apply Hsd.
    + intros H. exfalso. apply H. by left.
  - destruct (Hns Hs) as (st1 & Hl1 & Hs1).
    pose proof (IH bw1 st1 Hl1) as (IHc & IHp & IHsd & IHns).
    destruct (runStateChanges upNonNil bw1 (map (pair sc) ss)) as [bw2 e2]. simpl in *.
    split_and!; [congruence|congruence| |].
    + intros H. apply elem_of_cons in H as [H|H]; [done|]. by apply IHsd.
    + intros H. destruct (IHns (fun H1 => H (proj2 (elem_of_cons _ _ _) (or_intror H1)))) as (st2 & Hl2 & Hs2).
      exists st2. split; [done|]. rewrite Hs2.
      destruct ss as [|s'' ss]; simpl; [done|].
      by destruct (last (s'' :: ss)) eqn:El; [|apply last_None in El].
Qed.

(** Without a resolver, a wrapper built for [target] creates and connects
    one [SubConn] for the target address.  After any run of its state
    changes, a failfast [Pick] of [Address{Addr: target}] on a wrapper that
    is not pickfirst returns it exactly when its last state is Ready and it
    never reported Shutdown, and fails with Unavailable otherwise; on a
    pickfirst wrapper [Pick] returns it whatever its state. *)
Theorem lbWatcherDirect_pick {metadata : Type} `{!EqDecision metadata}
    upNonNil newSubConnFails (nilMetadata : metadata) (target : string) (pf : bool) (next : N)
    (ss : list State) (p : bool) :
  newSubConnFails [mkResolverAddress (buildTargetAddr target) Backend "" nilMetadata] = false ->
  let '(bw1, next1, effs) :=
    lbWatcherDirect newSubConnFails nilMetadata (Build target pf).1 next in
  effs = [ENewSubConn [mkResolverAddress (buildTargetAddr target) Backend "" nilMetadata] (Some next);
          EConnect next] /\
  next1 = N.succ next /\
  Pick ((runStateChanges upNonNil bw1 (map (pair next) ss)).1) None
       (inr (mkAddress (buildTargetAddr target) nilMetadata, p)) =
    if pf then (Some next, p, None)
    else if decide ((Shutdown ∉ ss) /\ last ss = Some Ready) then (Some next, p, None)
    else (None, false, Some PickUnavailable).
Proof.
  intros Hf. unfold lbWatcherDirect. cbn [Build fst targetAddr]. rewrite Hf.
  split_and!; [done|done|].
  set (bw1 := setConns _ _ _).
  assert (Hl : connSt bw1 !! next = Some (newScState (mkAddress (buildTargetAddr target) nilMetadata)))
    by (by cbn; rewrite lookup_insert_eq).
  pose proof (runStateChanges_tracked upNonNil bw1 next _ ss Hl) as (Hc & Hp & Hsd & Hns).
  set (bw' := (runStateChanges upNonNil bw1 (map (pair next) ss)).1) in *.
  unfold Pick. rewrite Hp. cbn [pickfirst bw1 setConns Build fst].
  destruct pf; [rewrite Hc; done|].
  rewrite Hc. cbn [conns bw1 setConns ainsert]. unfold backendAddr. cbn [Addr Metadata].
  simpl. rewrite decide_True by done. simpl.
  destruct (decide (Shutdown ∈ ss)) as [Hin|Hin].
  - rewrite (Hsd Hin). rewrite decide_False by naive_solver. done.
  - destruct (Hns Hin) as (st' & Hl' & Hs'). rewrite Hl'.
    destruct (decide (s st' = Ready)) as [Hr|Hr].
    + rewrite bool_decide_false by (intros H; exact (H Hr)).
      rewrite decide_True; [done|]. split; [done|].
      destruct (last ss) eqn:El; simpl in Hs'; congruence.
    + rewrite bool_decide_true by done.
      rewrite decide_False; [done|]. intros [_ H]. rewrite H in Hs'. simpl in Hs'. done.
Qed.

(* ------------------------------------------------------------------ *)
(** ** The misbehaving server handler *)

Section misbehave.
Variables (sid : N) (method : string) (iws maxLen : nat).
Hypothesis HmaxLen : (0 < maxLen)%nat.

Let lastLen (r : nat) : nat := if String.eqb method "foo.Connection" then r else (r + 1)%nat.

Lemma misbehaveLoop_frames (q r sent fuel : nat) :
  (1 <= r <= maxLen)%nat -> iws = (sent + q * maxLen + r)%nat -> (q + 2 <= fuel)%nat ->
  misbehaveLoop fuel sid method iws maxLen sent (repeat Byte.x00 maxLen) =
    Some (map (fun d => IData sid d false)
            (repeat (repeat Byte.x00 maxLen) q ++ [repeat Byte.x00 (lastLen r)])).
Proof.
  intros Hr. revert sent fuel. induction q as [|q IH]; intros sent fuel Hiws Hf.
  - destruct fuel as [|fuel]; [lia|]. cbn [misbehaveLoop].
    destruct (Nat.ltb_spec sent iws); [|lia].
    destruct (Nat.leb_spec (iws - sent) maxLen); [|lia].
    destruct fuel as [|fuel]; [lia|]. cbn [misbehaveLoop].
    destruct (Nat.ltb_spec (sent + length (if String.eqb method "foo.Connection"
        then repeat Byte.x00 (iws - sent) else repeat Byte.x00 (iws - sent + 1))) iws) as [Hlt|].
    + exfalso. destruct (String.eqb method "foo.Connection"); rewrite repeat_length in Hlt; lia.
    + simpl. unfold lastLen. replace (iws - sent)%nat with r by lia.
      by destruct (String.eqb method "foo.Connection").
  - destruct fuel as [|fuel]; [lia|]. cbn [misbehaveLoop].
    destruct (Nat.ltb_spec sent iws); [|lia].
    destruct (Nat.leb_spec (iws - sent) maxLen); [lia|].
    rewrite repeat_length, (IH (sent + maxLen)%nat fuel) by lia. done.
Qed.
End misbehave.

Lemma sum_list_app_nat (l1 l2 : list nat) : sum_list (l1 ++ l2) = (sum_list l1 + sum_list l2)%nat.
Proof. induction l1; simpl; lia. Qed.

Lemma dataBytes_frames (sid : N) (ds : list (list Byte.byte)) :
  dataBytes (map (fun d => IData sid d false) ds) = sum_list (map length ds).
Proof. induction ds; simpl; [done|]. unfold dataBytes in *. simpl. lia. Qed.

(** [handleStreamMisbehave] with a positive frame size queues, on the
    stream, full frames of [http2MaxFrameLen] zero bytes and then one last
    frame of the remaining [r] bytes (between 1 and [http2MaxFrameLen]) for
    the method "foo.Connection", or of [r + 1] bytes otherwise: it sends
    exactly [initialWindowSize] bytes in the first case and one byte more
    in the second.  It sends nothing when [initialWindowSize] is 0. *)
Theorem handleStreamMisbehave_frames (sid : N) (method : string) (iws maxLen : nat) :
  (0 < maxLen)%nat ->
  (iws = 0%nat -> handleStreamMisbehave sid method iws maxLen = Some []) /\
  ((0 < iws)%nat ->
   exists q r its,
     (1 <= r <= maxLen)%nat /\ iws = (q * maxLen + r)%nat /\
     handleStreamMisbehave sid method iws maxLen = Some its /\
     its = map (fun d => IData sid d false)
             (repeat (repeat Byte.x00 maxLen) q ++
              [repeat Byte.x00 (if String.eqb method "foo.Connection" then r else r + 1)]) /\
     dataBytes its = (iws + if String.eqb method "foo.Connection" then 0 else 1)%nat).
Proof.
  intros Hm. split.
  - intros ->. reflexivity.
  - intros Hi.
    set (q := ((iws - 1) / maxLen)%nat). set (r := ((iws - 1) mod maxLen + 1)%nat).
    assert (Hd : (iws - 1 = maxLen * q + (iws - 1) mod maxLen)%nat)
      by (apply Nat.div_mod; lia).
    assert (Hmod : ((iws - 1) mod maxLen < maxLen)%nat) by (apply Nat.mod_upper_bound; lia).
    assert (Hq : (q * maxLen <= iws - 1)%nat) by lia.
    assert (Hq' : (q <= q * maxLen)%nat) by nia.
    eexists q, r, _. split_and!; [lia|lia|lia| |reflexivity|].
    + unfold handleStreamMisbehave.
      rewrite (misbehaveLoop_frames sid method iws maxLen Hm q r 0 (S iws)) by lia.
      reflexivity.
    + rewrite dataBytes_frames, map_app, sum_list_app_nat. simpl.
      assert (Hs : forall k, sum_list (map length (repeat (repeat Byte.x00 maxLen) k)) = (k * maxLen)%nat).
      { induction k; simpl; [done|]. rewrite repeat_length. lia. }
      rewrite Hs. destruct (String.eqb method "foo.Connection"); rewrite repeat_length; lia.
Qed.

Lemma handleStreamMisbehave_frames_witness :
  exists its, handleStreamMisbehave 1 "foo.Stream" 10 4 = Some its /\
              dataBytes its = 11%nat.
Proof.
  destruct (handleStreamMisbehave_frames 1 "foo.Stream" 10 4 ltac:(lia)) as [_ H].
  destruct (H ltac:(lia)) as (q & r & its & _ & _ & E & _ & B).
  exists its. split; [exact E|]. rewrite B. vm_compute. reflexivity.
Defined.

(* ------------------------------------------------------------------ *)
(** ** The ping-pong server handler *)

Lemma to_N_byteN (v : N) : Byte.to_N (byteN v) = v mod 256.
Proof.
  unfold byteN. destruct (Byte.of_N (v mod 256)) eqn:E.
  - by apply Byte.to_of_N.
  - apply Byte.of_N_None_iff in E. pose proof (N.mod_lt v 256). lia.
Qed.

Lemma byte_to_N_inj (b c : Byte.byte) : Byte.to_N b = Byte.to_N c -> b = c.
Proof.
  intros H. pose proof (Byte.of_to_N b) as Hb. pose proof (Byte.of_to_N c) as Hc.
  rewrite H in Hb. congruence.
Qed.

Lemma lor_shiftl_add (a b k : N) : a < 2 ^ k -> N.lor a (N.shiftl b k) = a + b * 2 ^ k.
Proof.
  intros Ha. rewrite N.shiftl_mul_pow2. apply N.bits_inj. intros n.
  rewrite N.lor_spec.
  destruct (N.lt_ge_cases n k) as [Hn|Hn].
  - rewrite <- (N.mod_pow2_bits_low (a + b * 2 ^ k) k n Hn).
    rewrite N.Div0.mod_add.
    rewrite N.mod_small by done.
    rewrite <- N.shiftl_mul_pow2. rewrite N.shiftl_spec_low by done. apply orb_false_r.
  - rewrite <- N.shiftl_mul_pow2, N.shiftl_spec_high by lia.
    assert (Hz : N.testbit a n = false).
    { rewrite <- (N.mod_small a (2 ^ k)) by done. by apply N.mod_pow2_bits_high. }
    rewrite Hz. simpl.
    replace n with ((n - k) + k) at 2 by lia.
    rewrite <- N.div_pow2_bits, N.shiftl_mul_pow2.
    rewrite N.div_add by (apply N.pow_nonzero; lia).
    rewrite N.div_small by done. done.
Qed.

Lemma Uint32_bytes (b0 b1 b2 b3 : Byte.byte) rest :
  Uint32 (b0 :: b1 :: b2 :: b3 :: rest) =
  Some (Byte.to_N b3 + Byte.to_N b2 * 256 + Byte.to_N b1 * 65536 + Byte.to_N b0 * 16777216).
Proof.
  pose proof (Byte.to_N_bounded b0). pose proof (Byte.to_N_bounded b1).
  pose proof (Byte.to_N_bounded b2). pose proof (Byte.to_N_bounded b3).
  unfold Uint32. f_equal.
  rewrite (lor_shiftl_add (Byte.to_N b3) _ 8) by (change (2 ^ 8) with 256; lia).
  rewrite (lor_shiftl_add (Byte.to_N b3 + Byte.to_N b2 * 2 ^ 8) _ 16)
    by (change (2 ^ 8) with 256; change (2 ^ 16) with 65536; lia).
  rewrite lor_shiftl_add
    by (change (2 ^ 8) with 256; change (2 ^ 16) with 65536; change (2 ^ 24) with 16777216; lia).
  change (2 ^ 8) with 256; change (2 ^ 16) with 65536; change (2 ^ 24) with 16777216. lia.
Qed.

Lemma PutUint32_Uint32 (b0 b1 b2 b3 : Byte.byte) :
  exists v, Uint32 [b0; b1; b2; b3] = Some v /\ PutUint32 v = [b0; b1; b2; b3].
Proof.
  eexists. split; [apply Uint32_bytes|].
  pose proof (Byte.to_N_bounded b0). pose proof (Byte.to_N_bounded b1).
  pose proof (Byte.to_N_bounded b2). pose proof (Byte.to_N_bounded b3).
  unfold PutUint32. rewrite !N.shiftr_div_pow2.
  change (2 ^ 8) with 256; change (2 ^ 16) with 65536; change (2 ^ 24) with 16777216.
  set (x0 := Byte.to_N b0) in *. set (x1 := Byte.to_N b1) in *.
  set (x2 := Byte.to_N b2) in *. set (x3 := Byte.to_N b3) in *.
  repeat f_equal; apply byte_to_N_inj; rewrite to_N_byteN; fold x0 x1 x2 x3.
  - rewrite <- (N.div_unique _ 16777216 x0 (x3 + x2 * 256 + x1 * 65536)) by lia.
    apply N.mod_small. lia.
  - rewrite <- (N.div_unique _ 65536 (x1 + x0 * 256) (x3 + x2 * 256)) by lia.
    symmetry. apply (N.mod_unique _ _ x0); lia.
  - rewrite <- (N.div_unique _ 256 (x2 + x1 * 256 + x0 * 65536) x3) by lia.
    symmetry. apply (N.mod_unique _ _ (x1 + x0 * 256)); lia.
  - symmetry. apply (N.mod_unique _ _ (x2 + x1 * 256 + x0 * 65536)); lia.
Qed.

Lemma Uint32_PutUint32 (v : N) rest : v < 2 ^ 32 -> Uint32 (PutUint32 v ++ rest) = Some v.
Proof.
  intros Hv. unfold PutUint32. simpl (_ ++ _). rewrite Uint32_bytes. f_equal.
  rewrite !to_N_byteN, !N.shiftr_div_pow2.
  change (2 ^ 8) with 256; change (2 ^ 16) with 65536; change (2 ^ 24) with 16777216.
  change (2 ^ 32) with 4294967296 in Hv.
  replace (v / 65536) with (v / 256 / 256) by (by rewrite N.Div0.div_div).
  replace (v / 16777216) with (v / 256 / 256 / 256) by (by rewrite !N.Div0.div_div).
  pose proof (N.div_mod v 256 ltac:(lia)) as D0.
  pose proof (N.div_mod (v / 256) 256 ltac:(lia)) as D1.
  pose proof (N.div_mod (v / 256 / 256) 256 ltac:(lia)) as D2.
  pose proof (N.div_mod (v / 256 / 256 / 256) 256 ltac:(lia)) as D3.
  pose proof (N.mod_lt v 256 ltac:(lia)).
  pose proof (N.mod_lt (v / 256) 256 ltac:(lia)).
  pose proof (N.mod_lt (v / 256 / 256) 256 ltac:(lia)).
  pose proof (N.mod_lt (v / 256 / 256 / 256) 256 ltac:(lia)).
  set (q4 := v / 256 / 256 / 256 / 256) in *.
  set (r3 := v / 256 / 256 / 256 mod 256) in *.
  set (q3 := v / 256 / 256 / 256) in *.
  set (r2 := v / 256 / 256 mod 256) in *.
  set (q2 := v / 256 / 256) in *.
  set (r1 := v / 256 mod 256) in *.
  set (q1 := v / 256) in *.
  set (r0 := v mod 256) in *.
  clearbody q4 r3 q3 r2 q2 r1 q1 r0. lia.
Qed.

Lemma readFull_app (p rest : list Byte.byte) : readFull (p ++ rest) (length p) = ReadOK p rest.
Proof.
  unfold readFull. destruct p as [|b p]; [done|]. simpl length.
  rewrite length_app. simpl.
  destruct (Nat.ltb_spec (S (length p + length rest)) (S (length p))); [lia|].
  f_equal.
  - simpl. by rewrite take_app_length.
  - simpl. by rewrite drop_app_length.
Qed.

Lemma length_PutUint32 (v : N) : length (PutUint32 v) = 4%nat.
Proof. done. Qed.

Lemma pingPongLoop_echo (ms : list (Byte.byte * list Byte.byte)) (fuel : nat) :
  Forall (fun fm => N.of_nat (length fm.2) + 5 < 2 ^ 32) ms ->
  (length (concat (map (fun fm => fm.1 :: PutUint32 (N.of_nat (length fm.2)) ++ fm.2) ms)) < fuel)%nat ->
  pingPongLoop fuel (concat (map (fun fm => fm.1 :: PutUint32 (N.of_nat (length fm.2)) ++ fm.2) ms)) =
  Some (map (fun fm => Byte.x00 :: PutUint32 (N.of_nat (length fm.2)) ++ fm.2) ms, PPStatusOK).
Proof.
  revert fuel. induction ms as [|[f m] ms IH]; intros fuel Hms Hf.
  - destruct fuel; [simpl in Hf; lia|]. reflexivity.
  - apply Forall_cons in Hms as [Hm Hms]. simpl in Hm.
    destruct fuel as [|fuel]; [lia|]. cbn [concat map fst snd] in *.
    set (L := N.of_nat (length m)) in *.
    set (rest := concat (map (fun fm => fm.1 :: PutUint32 (N.of_nat (length fm.2)) ++ fm.2) ms)) in *.
    rewrite length_app in Hf. cbn [length] in Hf. rewrite length_app, length_PutUint32 in Hf.
    cbn [pingPongLoop].
    replace ((f :: PutUint32 L ++ m) ++ rest) with ((f :: PutUint32 L) ++ (m ++ rest))
      by (cbn [app]; by rewrite <- app_assoc).
    change (readFull ?x 5) with (readFull x (length (f :: PutUint32 L))).
    rewrite (readFull_app (f :: PutUint32 L) (m ++ rest)). cbn [drop].
    rewrite drop_0. rewrite <- (app_nil_r (PutUint32 L)), Uint32_PutUint32 by (change (2 ^ 32) with 4294967296 in *; lia).
    rewrite app_nil_r.
    replace (N.to_nat L) with (length m) by (unfold L; lia).
    rewrite readFull_app.
    destruct (Nat.ltb_spec (N.to_nat ((L + 5) mod 2 ^ 32)) 5) as [Hw|Hw].
    + rewrite N.mod_small in Hw by done. lia.
    + rewrite IH by (done || lia). reflexivity.
Qed.

(** [handleStreamPingPong] answers every message framed as
    [flag, uint32 big-endian length, message] (messages shorter than
    [2^32 - 5] bytes) with the same frame whose flag byte is 0, in order,
    and ends with [WriteStatus(OK)] at the end of the stream. *)
Theorem handleStreamPingPong_echo (ms : list (Byte.byte * list Byte.byte)) :
  Forall (fun fm => N.of_nat (length fm.2) + 5 < 2 ^ 32) ms ->
  handleStreamPingPong
    (concat (map (fun fm => fm.1 :: PutUint32 (N.of_nat (length fm.2)) ++ fm.2) ms)) =
  Some (map (fun fm => Byte.x00 :: PutUint32 (N.of_nat (length fm.2)) ++ fm.2) ms, PPStatusOK).
Proof. intros Hms. apply pingPongLoop_echo; [done|lia]. Qed.

Lemma handleStreamPingPong_echo_witness :
  handleStreamPingPong
    (concat (map (fun fm => fm.1 :: PutUint32 (N.of_nat (length fm.2)) ++ fm.2)
       [(Byte.x01, [Byte.x61; Byte.x62]); (Byte.x00, [])])) =
  Some (map (fun fm => Byte.x00 :: PutUint32 (N.of_nat (length fm.2)) ++ fm.2)
       [(Byte.x01, [Byte.x61; Byte.x62]); (Byte.x00, [])], PPStatusOK).
Proof.
  apply handleStreamPingPong_echo.
  repeat constructor; simpl; vm_compute; reflexivity.
Defined.

(* ------------------------------------------------------------------ *)
(** ** Witnesses *)

Lemma recordTransition_aggregate_witness :
  let '(cse', st) := recordTransition (mkCSE 1 1 0) Ready TransientFailure in
  cseCounts cse' ([] ++ TransientFailure :: [Connecting]) /\
  st = aggregateState ([] ++ TransientFailure :: [Connecting]).
Proof.
  apply (recordTransition_aggregate (mkCSE 1 1 0) [] [Connecting] Ready TransientFailure).
  - unfold uint64Mod. simpl. lia.
  - unfold cseCounts, countState. simpl. lia.
Defined.

Lemma recordTransition_same_state_witness :
  fst (recordTransition (mkCSE 1 0 0) Ready Ready) = mkCSE 1 0 0.
Proof.
  apply recordTransition_same_state; simpl; unfold uint64Mod; lia.
Defined.

Lemma HandleSubConnStateChange_aggregate_witness :
  let '(bw', effs) :=
    HandleSubConnStateChange (fun _ => true)
      (mkBalancerWrapper false "foo" (mkCSE 0 0 0) TransientFailure
         [(backendAddr (mkAddress "x" 0%nat), 0)]
         {[0 := mkScState (mkAddress "x" 0%nat) Idle None]} true) 0 Ready in
  cseCounts (csEvltr bw') (scStates (connSt bw')) /\
  (forall st, EUpdateBalancerState st ∈ effs ->
     st = state bw' /\ st = aggregateState (scStates (connSt bw'))).
Proof.
  apply HandleSubConnStateChange_aggregate.
  - vm_compute. reflexivity.
  - split_and!; vm_compute; reflexivity.
Defined.

Lemma runStateChanges_aggregate_witness :
  let '(bw', effs) :=
    runStateChanges (fun _ => true)
      (mkBalancerWrapper false "foo" (mkCSE 0 0 0) TransientFailure
         [(backendAddr (mkAddress "x" 0%nat), 0)]
         {[0 := mkScState (mkAddress "x" 0%nat) Idle None]} true)
      [(0, Connecting); (0, Ready); (0, TransientFailure)] in
  cseCounts (csEvltr bw') (scStates (connSt bw')) /\
  (forall st, last (reportedStates effs) = Some st ->
     st = state bw' /\ st = aggregateState (scStates (connSt bw'))).
Proof.
  apply runStateChanges_aggregate.
  - vm_compute. reflexivity.
  - split_and!; vm_compute; reflexivity.
Defined.

Lemma runStateChanges_up_down_witness :
  let '(bw', effs) :=
    runStateChanges (fun _ => true)
      (mkBalancerWrapper false "foo" (mkCSE 0 0 0) TransientFailure
         [(backendAddr (mkAddress "x" 0%nat), 0)]
         {[0 := mkScState (mkAddress "x" 0%nat) Idle None]} true)
      (map (pair 0) [Ready; TransientFailure; Ready]) in
  exists n,
    upDownCalls effs =
      map (fun i => if Nat.even i then EUp (mkAddress "x" 0%nat) else EDown (mkAddress "x" 0%nat))
        (seq 0 n) /\
    (Nat.odd n = true <-> exists st, connSt bw' !! 0 = Some st /\ s st = Ready).
Proof.
  apply (runStateChanges_up_down (fun _ => true) _ 0 (mkScState (mkAddress "x" 0%nat) Idle None)).
  - vm_compute. reflexivity.
  - simpl. discriminate.
  - reflexivity.
Defined.

Lemma Pick_failfast_witness :
  Pick (mkBalancerWrapper false "foo" (mkCSE 0 0 0) TransientFailure
          [(backendAddr (mkAddress "x" 0%nat), 0)]
          {[0 := mkScState (mkAddress "x" 0%nat) Connecting None]} true)
       None (inr (mkAddress "x" 0%nat, true)) =
  (None, false, Some PickUnavailable).
Proof.
  rewrite Pick_failfast by (reflexivity || discriminate).
  vm_compute. reflexivity.
Defined.

Lemma Pick_not_failfast_witness :
  Pick (mkBalancerWrapper false "foo" (mkCSE 0 0 0) TransientFailure
          [(backendAddr (mkAddress "x" 0%nat), 0)]
          {[0 := mkScState (mkAddress "x" 0%nat) Connecting None]} true)
       (Some false) (inr (mkAddress "y" 0%nat, true)) =
  (None, true, None).
Proof.
  rewrite Pick_not_failfast by reflexivity.
  vm_compute. reflexivity.
Defined.

Lemma Pick_errors_witness :
  None = @None N /\ false = false /\
  pickfirst (mkBalancerWrapper false "foo" (mkCSE 0 0 0) TransientFailure
               [(backendAddr (mkAddress "x" 0%nat), 0)]
               {[0 := mkScState (mkAddress "x" 0%nat) Connecting None]} true) = false /\
  @None bool <> Some false.
Proof.
  refine (Pick_errors _ None (inr (mkAddress "y" 0%nat, true)) None false PickUnavailable _).
  vm_compute. reflexivity.
Defined.

Lemma runPickfirst_single_conn_witness :
  exists bw' next' effs,
    runPickfirst (fun _ => true) (fun _ => false) 0%nat
      (@mkBalancerWrapper nat true "foo" (mkCSE 0 0 0) Idle [] ∅ true) 0
      [NotifyAddrs [mkAddress "x" 1%nat; mkAddress "y" 2%nat];
       SubConnStateChange 0 Ready; NotifyAddrs [mkAddress "z" 3%nat]] =
      Some (bw', next', effs) /\
    exists o : option N,
      conns bw' = match o with None => [] | Some c => [(zeroResolverAddress 0%nat, c)] end /\
      (pickfirst (@mkBalancerWrapper nat true "foo" (mkCSE 0 0 0) Idle [] ∅ true) = true ->
       forall rpcInfo a p, Pick bw' rpcInfo (inr (a, p)) = (o, p, None)).
Proof.
  lazymatch goal with
  | |- exists bw' next' effs, ?e = _ /\ _ =>
      destruct e as [[[bw' next'] effs]|] eqn:E; [|vm_compute in E; discriminate]
  end.
  exists bw', next', effs. split; [reflexivity|].
  apply (runPickfirst_single_conn (fun _ => true) (fun _ => false) 0%nat
           (@mkBalancerWrapper nat true "foo" (mkCSE 0 0 0) Idle [] ∅ true) 0
           [NotifyAddrs [mkAddress "x" 1%nat; mkAddress "y" 2%nat];
            SubConnStateChange 0 Ready; NotifyAddrs [mkAddress "z" 3%nat]] bw' next' effs).
  - reflexivity.
  - exact E.
Defined.

Lemma lbWatcherPickfirst_teardown_stale_witness :
  exists bw',
    lbWatcherPickfirst (fun _ => false) 0%nat
      (mkBalancerWrapper true "foo" (mkCSE 1 0 0) Ready
         [(zeroResolverAddress 0%nat, 0)]
         {[0 := mkScState (mkAddress "x" 0%nat) Ready None]} true) 1 [] =
      Some (bw', 1, [ERemoveSubConn 0]) /\
    alookup (zeroResolverAddress 0%nat) (conns bw') = None /\
    (forall k, k <> zeroResolverAddress 0%nat -> alookup k (conns bw') =
       alookup k (conns (mkBalancerWrapper true "foo" (mkCSE 1 0 0) Ready
         [(zeroResolverAddress 0%nat, 0)]
         {[0 := mkScState (mkAddress "x" 0%nat) Ready None]} true))) /\
    connSt bw' !! 0 = None /\
    csEvltr bw' = mkCSE 1 0 0 /\ state bw' = Ready /\
    (forall st, connSt (mkBalancerWrapper true "foo" (mkCSE 1 0 0) Ready
         [(zeroResolverAddress 0%nat, 0)]
         {[0 := mkScState (mkAddress "x" 0%nat) Ready None]} true) !! 0 = Some st -> s st = Ready ->
       cseCounts (mkCSE 1 0 0) (scStates (connSt (mkBalancerWrapper true "foo" (mkCSE 1 0 0) Ready
         [(zeroResolverAddress 0%nat, 0)]
         {[0 := mkScState (mkAddress "x" 0%nat) Ready None]} true))) ->
       numReady (csEvltr bw') = (Z.of_nat (countState Ready (scStates (connSt bw'))) + 1)%Z) /\
    forall ss, runStateChanges (fun _ => true) bw' (map (pair 0) ss) = (bw', []).
Proof.
  exact (lbWatcherPickfirst_teardown_stale (fun _ => true) (fun _ => false) 0%nat
           (mkBalancerWrapper true "foo" (mkCSE 1 0 0) Ready
         [(zeroResolverAddress 0%nat, 0)]
         {[0 := mkScState (mkAddress "x" 0%nat) Ready None]} true) 1 (zeroResolverAddress 0%nat) 0 [] eq_refl).
Defined.

Lemma lbWatcherPickfirst_panics_after_shutdown_witness :
  lbWatcherPickfirst (fun _ => false) 0%nat
    (HandleSubConnStateChange (fun _ => true)
       (mkBalancerWrapper true "foo" (mkCSE 0 1 0) Connecting
          [(zeroResolverAddress 0%nat, 0)]
          {[0 := mkScState (mkAddress "x" 0%nat) Connecting None]} true) 0 Shutdown).1
    1 [mkAddress "y" 0%nat] = None.
Proof.
  apply (lbWatcherPickfirst_panics_after_shutdown (fun _ => true) (fun _ => false) 0%nat
           (mkBalancerWrapper true "foo" (mkCSE 0 1 0) Connecting
              [(zeroResolverAddress 0%nat, 0)]
              {[0 := mkScState (mkAddress "x" 0%nat) Connecting None]} true) 1
           (zeroResolverAddress 0%nat) 0 [] (mkAddress "y" 0%nat) []).
  reflexivity.
Defined.

Lemma lbWatcherUpdate_conns_witness :
  exists bw' next' effs,
    lbWatcherUpdate (fun _ => false) 0%nat
      (mkBalancerWrapper false "foo" (mkCSE 0 0 0) TransientFailure
         [(backendAddr (mkAddress "x" 0%nat), 0); (backendAddr (mkAddress "w" 0%nat), 1)]
         {[0 := mkScState (mkAddress "x" 0%nat) Ready None;
           1 := mkScState (mkAddress "w" 0%nat) Ready None]} true) 2
      [mkAddress "x" 0%nat; mkAddress "y" 0%nat]
      (map backendAddr [mkAddress "x" 0%nat; mkAddress "y" 0%nat]) = (bw', next', effs) /\
    forall k,
      (k ∉ map backendAddr [mkAddress "x" 0%nat; mkAddress "y" 0%nat] ->
         alookup k (conns bw') = None) /\
      (forall c, k ∈ map backendAddr [mkAddress "x" 0%nat; mkAddress "y" 0%nat] ->
         alookup k [(backendAddr (mkAddress "x" 0%nat), 0); (backendAddr (mkAddress "w" 0%nat), 1)]
           = Some c -> alookup k (conns bw') = Some c) /\
      (k ∈ map backendAddr [mkAddress "x" 0%nat; mkAddress "y" 0%nat] ->
         alookup k [(backendAddr (mkAddress "x" 0%nat), 0); (backendAddr (mkAddress "w" 0%nat), 1)]
           = None ->
         if (fun _ => false) [k] then alookup k (conns bw') = None
         else exists c a, alookup k (conns bw') = Some c /\ (2 <= c)%N /\
                a ∈ [mkAddress "x" 0%nat; mkAddress "y" 0%nat] /\ backendAddr a = k /\
                connSt bw' !! c = Some (newScState a) /\ EConnect c ∈ effs).
Proof.
  lazymatch goal with
  | |- exists bw' next' effs, ?e = _ /\ _ =>
      destruct e as [[bw' next'] effs] eqn:E
  end.
  exists bw', next', effs. split; [reflexivity|].
  apply (lbWatcherUpdate_conns (fun _ => false) 0%nat
           (mkBalancerWrapper false "foo" (mkCSE 0 0 0) TransientFailure
              [(backendAddr (mkAddress "x" 0%nat), 0); (backendAddr (mkAddress "w" 0%nat), 1)]
              {[0 := mkScState (mkAddress "x" 0%nat) Ready None;
                1 := mkScState (mkAddress "w" 0%nat) Ready None]} true) 2
           [mkAddress "x" 0%nat; mkAddress "y" 0%nat]
           (map backendAddr [mkAddress "x" 0%nat; mkAddress "y" 0%nat]) bw' next' effs).
  - apply (bool_decide_unpack _). vm_compute. reflexivity.
  - intros k. reflexivity.
  - exact E.
Defined.

Lemma lbWatcherUpdate_remove_witness :
  exists bw' next' effs,
    lbWatcherUpdate (fun _ => false) 0%nat
      (mkBalancerWrapper false "foo" (mkCSE 0 0 0) TransientFailure
         [(backendAddr (mkAddress "x" 0%nat), 0); (backendAddr (mkAddress "w" 0%nat), 1)]
         {[0 := mkScState (mkAddress "x" 0%nat) Ready None;
           1 := mkScState (mkAddress "w" 0%nat) Ready None]} true) 2
      [mkAddress "x" 0%nat; mkAddress "y" 0%nat]
      (map backendAddr [mkAddress "y" 0%nat; mkAddress "x" 0%nat]) = (bw', next', effs) /\
    (exists effsAdd,
       effs = effsAdd ++ map ERemoveSubConn
                (map snd (filter (fun p => p.1 ∉ map backendAddr
                                             [mkAddress "x" 0%nat; mkAddress "y" 0%nat])
                   [(backendAddr (mkAddress "x" 0%nat), 0); (backendAddr (mkAddress "w" 0%nat), 1)])) /\
       forall c, ERemoveSubConn c ∉ effsAdd) /\
    (forall c, (c < 2)%N ->
       connSt bw' !! c =
       ({[0 := mkScState (mkAddress "x" 0%nat) Ready None;
          1 := mkScState (mkAddress "w" 0%nat) Ready None]} : gmap N scState) !! c).
Proof.
  lazymatch goal with
  | |- exists bw' next' effs, ?e = _ /\ _ =>
      destruct e as [[bw' next'] effs] eqn:E
  end.
  exists bw', next', effs. split; [reflexivity|].
  pose proof (lbWatcherUpdate_remove (fun _ => false) 0%nat
           (mkBalancerWrapper false "foo" (mkCSE 0 0 0) TransientFailure
              [(backendAddr (mkAddress "x" 0%nat), 0); (backendAddr (mkAddress "w" 0%nat), 1)]
              {[0 := mkScState (mkAddress "x" 0%nat) Ready None;
                1 := mkScState (mkAddress "w" 0%nat) Ready None]} true) 2
           [mkAddress "x" 0%nat; mkAddress "y" 0%nat]
           (map backendAddr [mkAddress "y" 0%nat; mkAddress "x" 0%nat]) bw' next' effs) as H.
  exact (H ltac:(apply (bool_decide_unpack _); vm_compute; reflexivity) E).
Defined.

Lemma lbWatcherUpdate_counters_witness :
  exists bw' next' effs,
    lbWatcherUpdate (fun _ => false) 0%nat
      (mkBalancerWrapper false "foo" (mkCSE 1 0 0) Ready
         [(backendAddr (mkAddress "x" 0%nat), 0)]
         {[0 := mkScState (mkAddress "x" 0%nat) Ready None]} true) 1
      [mkAddress "x" 0%nat; mkAddress "y" 0%nat]
      (map backendAddr [mkAddress "x" 0%nat; mkAddress "y" 0%nat]) = (bw', next', effs) /\
    cseCounts (csEvltr bw') (scStates (connSt bw')) /\
    (forall c, (next' <= c)%N -> connSt bw' !! c = None) /\
    csEvltr bw' = mkCSE 1 0 0 /\ state bw' = Ready.
Proof.
  lazymatch goal with
  | |- exists bw' next' effs, ?e = _ /\ _ =>
      destruct e as [[bw' next'] effs] eqn:E
  end.
  exists bw', next', effs. split; [reflexivity|].
  apply (lbWatcherUpdate_counters (fun _ => false) 0%nat
           (mkBalancerWrapper false "foo" (mkCSE 1 0 0) Ready
              [(backendAddr (mkAddress "x" 0%nat), 0)]
              {[0 := mkScState (mkAddress "x" 0%nat) Ready None]} true) 1
           [mkAddress "x" 0%nat; mkAddress "y" 0%nat]
           (map backendAddr [mkAddress "x" 0%nat; mkAddress "y" 0%nat]) bw' next' effs).
  - exact E.
  - split_and!; vm_compute; reflexivity.
  - intros c Hc. cbn [connSt]. rewrite lookup_singleton_ne; [done|lia].
Defined.

Lemma Build_targetAddr_thm_witness :
  (Index "dns:///foo.com:50051" ":///" = None ->
   targetAddr (fst (@Build nat "dns:///foo.com:50051" false)) = "dns:///foo.com:50051") /\
  targetAddr (fst (@Build nat (String.append "dns" (String.append ":///" "foo.com:50051")) false))
    = "foo.com:50051" /\
  targetAddr (fst (@Build nat (String.append "dns" (String.append ":///"
     (String.append "foo.com:50051" (String.append ":///" "x")))) false)) = "foo.com:50051" /\
  snd (@Build nat "dns:///foo.com:50051" false) =
    [EStart (targetAddr (fst (@Build nat "dns:///foo.com:50051" false))); EUpdateBalancerState Idle].
Proof.
  apply Build_targetAddr_thm; vm_compute; reflexivity.
Defined.

Lemma lbWatcherDirect_pick_witness :
  let '(bw1, next1, effs) :=
    lbWatcherDirect (fun _ => false) 0%nat (@Build nat "dns:///foo.com" false).1 0 in
  effs = [ENewSubConn [mkResolverAddress (buildTargetAddr "dns:///foo.com") Backend "" 0%nat] (Some 0);
          EConnect 0] /\
  next1 = N.succ 0 /\
  Pick ((runStateChanges (fun _ => true) bw1 (map (pair 0) [Connecting; Ready])).1) None
       (inr (mkAddress (buildTargetAddr "dns:///foo.com") 0%nat, true)) =
    if false then (Some 0, true, None)
    else if decide ((Shutdown ∉ [Connecting; Ready]) /\ last [Connecting; Ready] = Some Ready)
    then (Some 0, true, None) else (None, false, Some PickUnavailable).
Proof.
  apply (lbWatcherDirect_pick (fun _ => true) (fun _ => false) 0%nat "dns:///foo.com" false 0
           [Connecting; Ready] true).
  reflexivity.
Defined.
